(** * cashflows: time value of money, amortization schedules, rate conversion

    A shallow embedding of [cashflows/basics.py] ([tvmm], its wrappers
    [pvfv], [pmtfv] and [pvpmt], [amortize], [iconv]) and of
    [cashflows/gcashcomp.py] ([vars2list], [after_tax_cashflow],
    [to_discount_factor], [to_compound_factor], [const2curr], [curr2const],
    [currency_conversion]), with the properties of their specification and
    further properties of the code.

    Numbers.  Python's floats are read as exact numbers: rationals [Q] where
    the code only adds, multiplies, divides and truncates ([tvmm]'s dispatch,
    [amortize], [after_tax_cashflow]), reals [R] in [iconv], whose
    [1/pyr]-th power leaves the rationals.  Rounding errors, overflow, NaN
    and infinities are outside the model, so "within tolerance" reads as
    equality ([==] on [Q], [=] on [R]).

    numpy.  The five financial functions of numpy are a library the
    repository calls; they enter as an interface ([Numpy]) and every general
    theorem holds for any implementation of it.  [numpy_exact] is an
    implementation by numpy's closed forms, used to run the definitions; the
    examples of the source's documentation are reproduced with it at the end.

    Printing.  [tvmm] and [amortize] are modelled as called with
    [noprint=True], their default, where they return their result; with
    [noprint=False] they print it and return [None]. *)

From Stdlib Require Import QArith Qround Qabs Qpower Qfield ZArith Lia Bool.
From Stdlib Require Import Reals Rpower Psatz.
From stdpp Require Import base list.

Local Open Scope Q_scope.

(** ** Python exceptions and results *)

Inductive exn : Set :=
| ValueError_params     (* 'One of the params must be set to None' *)
| ValueError_broadcast  (* numpy: operands could not be broadcast together *)
| ValueError_rates      (* 'Two of the rates must be set to `None`' *)
| ValueError_lists      (* 'List must have the same length' *)
| ValueError_range      (* verify_eq_time_range *)
| Exception_lengths     (* 'Lists in parameters must the same length' *)
| TypeError
| IndexError
| ZeroDivisionError.

Inductive result (A : Type) : Type :=
| Ok (a : A)
| Raise (e : exn).

Arguments Ok {A} a.
Arguments Raise {A} e.

#[global] Instance result_bind : MBind result := fun A B k r =>
  match r with
  | Ok a => k a
  | Raise e => Raise e
  end.

#[global] Instance result_ret : MRet result := fun A a => Ok a.

(** [for x in xs: body]: the loop body threads the state and may raise. *)
Fixpoint for_each {X S} (body : X -> S -> result S) (xs : list X) (s : S)
  : result S :=
  match xs with
  | [] => Ok s
  | x :: xs' => s' ← body x s; for_each body xs' s'
  end.

(** An argument that is [None] where a number is needed. *)
Definition need {A} (o : option A) : result A :=
  match o with
  | Some a => Ok a
  | None => Raise TypeError
  end.

(** ** Python lists read and written by index *)

(** [l[i]] for [i >= 0]. *)
Definition getitem {A} (l : list A) (i : nat) : result A :=
  match l !! i with
  | Some x => Ok x
  | None => Raise IndexError
  end.

(** [l[i] = x] for [i >= 0]. *)
Definition setitem {A} (l : list A) (i : nat) (x : A) : result (list A) :=
  if (i <? length l)%nat then Ok (<[i := x]> l) else Raise IndexError.

(** A Python index, which counts from the end when negative. *)
Definition py_index (len : nat) (i : Z) : result nat :=
  if (0 <=? i)%Z
  then (if (i <? Z.of_nat len)%Z then Ok (Z.to_nat i) else Raise IndexError)
  else (if (- Z.of_nat len <=? i)%Z then Ok (Z.to_nat (Z.of_nat len + i))
        else Raise IndexError).

(** ** Scalars and lists as arguments *)

Inductive value (A : Type) : Type :=
| Scalar (x : A)
| PyList (l : list A).

Arguments Scalar {A} x.
Arguments PyList {A} l.

(** *** gcashcomp.vars2list *)

Definition vars2list {A} (params : list (value A)) : result (list (list A)) :=
  let len :=
    fold_left (fun len param =>
                 match param with
                 | PyList l => Nat.max len (length l)
                 | Scalar _ => len
                 end) params 1%nat in
  (if (1 <? len)%nat
   then for_each (fun param (_ : unit) =>
                    match param with
                    | PyList l =>
                        if negb (length l =? len)%nat
                        then Raise Exception_lengths else Ok tt
                    | Scalar _ => Ok tt
                    end) params tt
   else Ok tt);;
  Ok (map (fun param =>
             match param with
             | PyList l => l
             | Scalar x => replicate len x
             end) params).

(** *** numpy broadcasting of scalars and one-dimensional arrays *)

(** [None] is the shape [()] of a scalar, [Some n] the shape [(n,)]. *)
Definition shape := option nat.

Definition shape_of {A} (v : value A) : shape :=
  match v with
  | Scalar _ => None
  | PyList l => Some (length l)
  end.

Definition broadcast2 (s t : shape) : result shape :=
  match s, t with
  | None, _ => Ok t
  | _, None => Ok s
  | Some n, Some m =>
      if (n =? m)%nat then Ok s
      else if (n =? 1)%nat then Ok t
      else if (m =? 1)%nat then Ok s
      else Raise ValueError_broadcast
  end.

Fixpoint broadcast (ss : list shape) : result shape :=
  match ss with
  | [] => Ok None
  | s :: ss' => t ← broadcast ss'; broadcast2 s t
  end.

(** The element an operand contributes at position [i] of the result. *)
Definition item {A} (d : A) (v : value A) (i : nat) : A :=
  match v with
  | Scalar x => x
  | PyList l => nth (if (length l =? 1)%nat then 0%nat else i) l d
  end.

(** The result of an elementwise numpy computation of shape [s], as the
    caller sees it: a number, or the list [tolist()] makes of the array. *)
Definition np_build {A} (s : shape) (at_ : nat -> A) : value A :=
  match s with
  | None => Scalar (at_ 0%nat)
  | Some n => PyList (map at_ (seq 0 n))
  end.

Definition np_map2 {A} (d : A) (f : A -> A -> A) (a b : value A)
  : result (value A) :=
  s ← broadcast [shape_of a; shape_of b];
  Ok (np_build s (fun i => f (item d a i) (item d b i))).

Definition np_map5 {A} (d : A) (f : A -> A -> A -> A -> A -> A)
  (a b c e g : value A) : result (value A) :=
  s ← broadcast [shape_of a; shape_of b; shape_of c; shape_of e; shape_of g];
  Ok (np_build s (fun i => f (item d a i) (item d b i) (item d c i)
                              (item d e i) (item d g i))).

(** ** numpy's financial functions *)

(** The functions on numbers, with numpy's argument order; [when] is 0 for
    payments at the end of a period and 1 for payments at its start.  On
    arrays numpy applies them elementwise after broadcasting ([np_map5]). *)
Class Numpy : Type := {
  np_pv   : forall (rate nper pmt fv when : Q), Q;
  np_fv   : forall (rate nper pmt pv when : Q), Q;
  np_nper : forall (rate pmt pv fv when : Q), Q;
  np_pmt  : forall (rate nper pv fv when : Q), Q;
  np_rate : forall (nper pmt pv fv when : Q), Q
}.

(** ** basics.tvmm *)

Definition is_none {A} (o : option A) : nat :=
  match o with
  | None => 1
  | Some _ => 0
  end.

(** [if pmt == 0.0: pmt = 0.0000001]; a list never equals [0.0]. *)
Definition nonzero_pmt (pmt : option (value Q)) : option (value Q) :=
  match pmt with
  | Some (Scalar p) =>
      if Qeq_bool p 0 then Some (Scalar (1 # 10000000)) else pmt
  | _ => pmt
  end.

(** [tvmm(pval, fval, pmt, nrate, nper, due, pyr)] with [noprint=True]: the
    value it returns.  Every argument may be a number or a list. *)
Definition tvmm `{Numpy} (pval fval pmt nrate nper : option (value Q))
  (due : Z) (pyr : value Q) : result (value Q) :=
  let numnone := (is_none pval + is_none fval + is_none nper
                  + is_none pmt + is_none nrate)%nat in
  if (1 <? numnone)%nat then Raise ValueError_params else
  let pmt := if (numnone =? 0)%nat then None else pmt in
  let pmt := nonzero_pmt pmt in
  let when := inject_Z due in
  match pval, fval, nper, pmt with
  | None, _, _, _ =>
      fval ← need fval; nper ← need nper; pmt ← need pmt; nrate ← need nrate;
      np_map5 0 (fun nrate pyr nper pmt fval =>
                   np_pv (nrate / 100 / pyr) nper pmt fval when)
        nrate pyr nper pmt fval
  | Some pval, None, _, _ =>
      nper ← need nper; pmt ← need pmt; nrate ← need nrate;
      np_map5 0 (fun nrate pyr nper pmt pval =>
                   np_fv (nrate / 100 / pyr) nper pmt pval when)
        nrate pyr nper pmt pval
  | Some pval, Some fval, None, _ =>
      pmt ← need pmt; nrate ← need nrate;
      np_map5 0 (fun nrate pyr pmt pval fval =>
                   np_nper (nrate / 100 / pyr) pmt pval fval when)
        nrate pyr pmt pval fval
  | Some pval, Some fval, Some nper, None =>
      nrate ← need nrate;
      np_map5 0 (fun nrate pyr nper pval fval =>
                   np_pmt (nrate / 100 / pyr) nper pval fval when)
        nrate pyr nper pval fval
  | Some pval, Some fval, Some nper, Some pmt =>
      np_map5 0 (fun nper pmt pval fval pyr =>
                   np_rate nper pmt pval fval when * 100 * pyr)
        nper pmt pval fval pyr
  end.

(** ** basics.amortize *)

(** [nper] is an [int], or a [float] when it is supplied so or solved. *)
Inductive number : Type :=
| Int (z : Z)
| Float (q : Q).

Definition number_Q (n : number) : Q :=
  match n with
  | Int z => inject_Z z
  | Float q => q
  end.

(** [int(x)]: truncation towards zero. *)
Definition py_int (x : Q) : Z := Z.quot (Qnum x) (Zpos (Qden x)).

(** The five parameters once the unset one is solved. *)
Record tvm : Type := {
  t_pval : Q;
  t_fval : Q;
  t_pmt : Q;
  t_nrate : Q;
  t_nper : number
}.

(** What [tvmm] returns to [amortize], whose arguments are numbers. *)
Definition scalar (r : result (value Q)) : result Q :=
  v ← r;
  match v with
  | Scalar x => Ok x
  | PyList _ => Raise TypeError
  end.

(** The first part of [amortize]: the count of unset parameters, the
    replacement of a zero payment, and the call of [tvmm] for the parameter
    to solve. *)
Definition resolve `{Numpy} (pval fval pmt nrate : option Q)
  (nper : option number) (due : Z) (pyr : Q) : result tvm :=
  let numnone := (is_none pval + is_none fval + is_none nper
                  + is_none pmt + is_none nrate)%nat in
  if (1 <? numnone)%nat then Raise ValueError_params else
  let pmt := if (numnone =? 0)%nat then None else pmt in
  let pmt := match pmt with
             | Some p => if Qeq_bool p 0 then Some (1 # 10000000) else Some p
             | None => None
             end in
  let arg := option_map (@Scalar Q) in
  let narg := option_map (fun n => Scalar (number_Q n)) nper in
  match pval, fval, nper, pmt with
  | None, _, _, _ =>
      pval ← scalar (tvmm None (arg fval) (arg pmt) (arg nrate) narg
                       due (Scalar pyr));
      fval ← need fval; nper ← need nper; pmt ← need pmt; nrate ← need nrate;
      Ok {| t_pval := pval; t_fval := fval; t_pmt := pmt;
            t_nrate := nrate; t_nper := nper |}
  | Some pval, None, _, _ =>
      fval ← scalar (tvmm (Some (Scalar pval)) None (arg pmt) (arg nrate) narg
                       due (Scalar pyr));
      nper ← need nper; pmt ← need pmt; nrate ← need nrate;
      Ok {| t_pval := pval; t_fval := fval; t_pmt := pmt;
            t_nrate := nrate; t_nper := nper |}
  | Some pval, Some fval, None, _ =>
      nper ← scalar (tvmm (Some (Scalar pval)) (Some (Scalar fval)) (arg pmt)
                       (arg nrate) None due (Scalar pyr));
      pmt ← need pmt; nrate ← need nrate;
      Ok {| t_pval := pval; t_fval := fval; t_pmt := pmt;
            t_nrate := nrate; t_nper := Float nper |}
  | Some pval, Some fval, Some nper, None =>
      pmt ← scalar (tvmm (Some (Scalar pval)) (Some (Scalar fval)) None
                      (arg nrate) narg due (Scalar pyr));
      nrate ← need nrate;
      Ok {| t_pval := pval; t_fval := fval; t_pmt := pmt;
            t_nrate := nrate; t_nper := nper |}
  | Some pval, Some fval, Some nper, Some pmt =>
      nrate ← scalar (tvmm (Some (Scalar pval)) (Some (Scalar fval))
                        (Some (Scalar pmt)) None narg due (Scalar pyr));
      Ok {| t_pval := pval; t_fval := fval; t_pmt := pmt;
            t_nrate := nrate; t_nper := nper |}
  end.

(** [if int(nper) != nper: nper = int(nper + 0.9)] *)
Definition round_nper (nper : number) : number :=
  if negb (Qeq_bool (inject_Z (py_int (number_Q nper))) (number_Q nper))
  then Int (py_int (number_Q nper + (9 # 10)))
  else nper.

(** The columns of the schedule: beginning balance, payment, interest,
    principal repayment, final balance. *)
Record rows : Type := {
  begbal : list Q;
  pmts : list Q;
  ipmt : list Q;
  ppmt : list Q;
  rembal : list Q
}.

(** The body of [for period in range(nper + 1)]. *)
Definition period_step (erate : Q) (period : nat) (s : rows) : result rows :=
  match period with
  | O =>
      b ← getitem (begbal s) 0;
      p ← getitem (pmts s) 0;
      rembal' ← setitem (rembal s) 0 (b + p);
      p ← getitem (pmts s) 0;
      ppmt' ← setitem (ppmt s) 0 p;
      Ok {| begbal := begbal s; pmts := pmts s; ipmt := ipmt s;
            ppmt := ppmt'; rembal := rembal' |}
  | S previous =>
      r ← getitem (rembal s) previous;
      begbal' ← setitem (begbal s) period r;
      b ← getitem begbal' period;
      ipmt' ← setitem (ipmt s) period (b * erate);
      p ← getitem (pmts s) period;
      i ← getitem ipmt' period;
      ppmt' ← setitem (ppmt s) period (p + i);
      b ← getitem begbal' period;
      pp ← getitem ppmt' period;
      rembal' ← setitem (rembal s) period (b + pp);
      Ok {| begbal := begbal'; pmts := pmts s; ipmt := ipmt';
            ppmt := ppmt'; rembal := rembal' |}
  end.

(** The second part of [amortize]: the periodic rate, the whole number of
    periods and the walk over the periods [0..nper].

    [nrate / pyr / 100] raises [ZeroDivisionError] for [pyr = 0] (where
    [nrate] was solved by numpy, Python goes on with a schedule of NaN, which
    the model does not represent and gives as the same error).  [[0] * (nper
    + 1)] is a [TypeError] for a [float] [nper], and the empty list for
    [nper + 1 <= 0], on which the first assignment by index fails. *)
Definition schedule (t : tvm) (due : Z) (pyr : Q) : result rows :=
  (if Qeq_bool pyr 0 then Raise ZeroDivisionError else Ok tt);;
  let erate := t_nrate t / pyr / 100 in
  match round_nper (t_nper t) with
  | Float _ => Raise TypeError
  | Int nper =>
      let len := Z.to_nat (nper + 1) in
      let begbal := replicate len 0 in
      let ipmt := replicate len 0 in
      let ppmt := replicate len 0 in
      let rembal := replicate len 0 in
      let pmt := replicate len (t_pmt t) in
      pmt ← (if (due =? 0)%Z then setitem pmt 0 0 else Ok pmt);
      pmt ← (if (due =? 1)%Z
             then i ← py_index (length pmt) nper; setitem pmt i 0
             else Ok pmt);
      begbal ← setitem begbal 0 (t_pval t);
      for_each (period_step erate) (seq 0 len)
        {| begbal := begbal; pmts := pmt; ipmt := ipmt;
           ppmt := ppmt; rembal := rembal |}
  end.

Definition amortize_rows `{Numpy} (pval fval pmt nrate : option Q)
  (nper : option number) (due : Z) (pyr : Q) : result rows :=
  t ← resolve pval fval pmt nrate nper due pyr;
  schedule t due pyr.

(** [amortize(pval, fval, pmt, nrate, nper, due, pyr)] with [noprint=True]:
    [(principal, interest, payment, balance)]. *)
Definition amortize `{Numpy} (pval fval pmt nrate : option Q)
  (nper : option number) (due : Z) (pyr : Q)
  : result (list Q * list Q * list Q * list Q) :=
  s ← amortize_rows pval fval pmt nrate nper due pyr;
  Ok (ppmt s, ipmt s, pmts s, rembal s).

(** ** numpy in exact arithmetic *)

(** numpy's functions solve, each for one unknown,
    [fv + pv*(1+rate)**nper + pmt*(1 + rate*when)/rate*((1+rate)**nper - 1) = 0]
    (and [fv + pv + pmt*nper = 0] for [rate = 0]).  The definitions below
    are its closed forms over [Q]; the power is taken at the whole part of
    [nper] and the logarithm of [nper] is exact at whole numbers, so they
    are numpy's values, up to rounding, at whole numbers of periods. *)
Module Exact.

(** [(1 + rate)**nper] *)
Definition growth (rate nper : Q) : Q := (1 + rate) ^ Qfloor nper.

(** [np.where(rate == 0, nper, (1 + rate*when)*(temp - 1)/rate)] *)
Definition fact (rate nper when : Q) : Q :=
  if Qeq_bool rate 0 then nper
  else (1 + rate * when) * (growth rate nper - 1) / rate.

Definition pv (rate nper pmt fv when : Q) : Q :=
  - (fv + pmt * fact rate nper when) / growth rate nper.

Definition fv (rate nper pmt pv when : Q) : Q :=
  - (pv * growth rate nper + pmt * fact rate nper when).

Definition pmt (rate nper pv fv when : Q) : Q :=
  - (fv + pv * growth rate nper) / fact rate nper when.

(** [log(target)/log(g)] where it is a whole number [n] ([target] is
    [g^n]), and between two whole numbers the point at which the chord of
    [g^n] and [g^(n+1)] meets [target]. *)
Fixpoint log_ratio (g target : Q) (fuel : nat) (n : Z) : Q :=
  match fuel with
  | O => inject_Z n
  | S fuel' =>
      let lo := g ^ n in
      let hi := g ^ (n + 1) in
      if (Qle_bool lo target && negb (Qle_bool hi target))
         || (Qle_bool target lo && negb (Qle_bool target hi))
      then inject_Z n + (target - lo) / (hi - lo)
      else log_ratio g target fuel' (n + 1)
  end.

(** [log((-fv + z)/(pv + z))/log(1 + rate)] with
    [z = pmt*(1 + rate*when)/rate], and [-(fv + pv)/pmt] for [rate = 0]. *)
Definition nper (rate pmt pv fv when : Q) : Q :=
  if Qeq_bool rate 0 then - (fv + pv) / pmt
  else
    let z := pmt * (1 + rate * when) / rate in
    log_ratio (1 + rate) ((- fv + z) / (pv + z)) 1200 0.

(** The Newton step of [numpy.rate]. *)
Definition g_div_gp (r n p x y w : Q) : Q :=
  let t1 := growth r n in
  let t2 := growth r (n - 1) in
  let g := y + t1 * x + p * (t1 - 1) * (r * w + 1) / r in
  let gp := n * t2 * x - p * (t1 - 1) * (r * w + 1) / (r * r)
            + n * p * t2 * (r * w + 1) / r + p * (t1 - 1) * w / r in
  g / gp.

(** [numpy.rate]: at most [maxiter] steps from [guess], until two iterates
    are within [tol].  (numpy returns NaN where the iteration does not get
    there; the last iterate stands for it.) *)
Fixpoint newton (maxiter : nat) (rn n p x y w : Q) : Q :=
  match maxiter with
  | O => rn
  | S maxiter' =>
      let rnp1 := Qred (rn - g_div_gp rn n p x y w) in
      if Qle_bool (1 # 1000000) (Qabs (rnp1 - rn))
      then newton maxiter' rnp1 n p x y w
      else rnp1
  end.

Definition rate (nper pmt pv fv when : Q) : Q :=
  newton 100 (1 # 10) nper pmt pv fv when.

End Exact.

Definition numpy_exact : Numpy := {|
  np_pv := Exact.pv;
  np_fv := Exact.fv;
  np_nper := Exact.nper;
  np_pmt := Exact.pmt;
  np_rate := Exact.rate
|}.

(** ** basics.iconv *)

Module Rates.
Local Open Scope R_scope.

(** [numpy.power] on a positive base, where [1 + rate/100] lies for every
    rate above -100 %.  (On a base [<= 0] numpy gives 0, an infinity, NaN
    or a signed whole power, which the model does not cover.) *)
Definition np_power (b e : R) : R := Rpower b e.

(** An elementwise operation of two numpy arrays. *)
Definition np_zip (f : R -> R -> R) (a b : list R) : result (list R) :=
  v ← np_map2 0 f (PyList a) (PyList b);
  match v with
  | PyList l => Ok l
  | Scalar _ => Raise TypeError
  end.

(** [isinstance(x, list) and isinstance(pyr, list) and len(x) != len(pyr)] *)
Definition lengths_differ (x : option (value R)) (pyr : value R) : bool :=
  match x, pyr with
  | Some (PyList l), PyList lp => negb (length l =? length lp)%nat
  | _, _ => false
  end.

(** [if isinstance(x, list): maxlen = max(maxlen, len(x))] *)
Definition max_len (maxlen : nat) (x : option (value R)) : nat :=
  match x with
  | Some (PyList l) => Nat.max maxlen (length l)
  | _ => maxlen
  end.

(** [if isinstance(x, (int, float)): x = [x] * maxlen], then [numpy.array(x)] *)
Definition as_array (maxlen : nat) (x : value R) : list R :=
  match x with
  | Scalar r => replicate maxlen r
  | PyList l => l
  end.

(** [x.tolist()], and [x[0]] of it [if maxlen == 1]. *)
Definition shaped (maxlen : nat) (x : list R) : result (value R) :=
  if (maxlen =? 1)%nat then r ← getitem x 0; Ok (Scalar r)
  else Ok (PyList x).

(** [iconv(nrate, erate, prate, pyr)]: the two rates that were not given. *)
Definition iconv (nrate erate prate : option (value R)) (pyr : value R)
  : result (value R * value R) :=
  let numnone := (is_none nrate + is_none erate + is_none prate)%nat in
  if negb (numnone =? 2)%nat then Raise ValueError_rates else
  if lengths_differ nrate pyr then Raise ValueError_lists else
  if lengths_differ erate pyr then Raise ValueError_lists else
  if lengths_differ prate pyr then Raise ValueError_lists else
  let maxlen := max_len (max_len (max_len (max_len 1 nrate) erate) prate)
                  (Some pyr) in
  let pyr := as_array maxlen pyr in
  match nrate, erate with
  | Some nrate, _ =>
      let nrate := as_array maxlen nrate in
      prate ← np_zip (fun nrate pyr => nrate / pyr) nrate pyr;
      erate ← np_zip (fun prate pyr =>
                        100 * (np_power (1 + prate / 100) pyr - 1))
                prate pyr;
      prate ← shaped maxlen prate;
      erate ← shaped maxlen erate;
      Ok (erate, prate)
  | None, Some erate =>
      let erate := as_array maxlen erate in
      prate ← np_zip (fun erate pyr =>
                        100 * (np_power (1 + erate / 100) (1 / pyr) - 1))
                erate pyr;
      nrate ← np_zip (fun pyr prate => pyr * prate) pyr prate;
      prate ← shaped maxlen prate;
      nrate ← shaped maxlen nrate;
      Ok (nrate, prate)
  | None, None =>
      prate ← need prate;
      let prate := as_array maxlen prate in
      erate ← np_zip (fun prate pyr =>
                        100 * (np_power (1 + prate / 100) pyr - 1))
                prate pyr;
      nrate ← np_zip (fun pyr prate => pyr * prate) pyr prate;
      erate ← shaped maxlen erate;
      nrate ← shaped maxlen nrate;
      Ok (nrate, erate)
  end.

End Rates.

(** ** gcashcomp.after_tax_cashflow *)

(** Modelled from the spec: [cashflows.gtimeseries] ([TimeSeries],
    [verify_eq_time_range]) is not among the sources.  The spec describes
    "a time-indexed series abstraction supporting elementwise access by
    period index, a defined start/end and periods-per-year, equality-of-range
    validation between two series": a series is its first period, its
    periods per year and its values, one for each period up to its end. *)
Record TimeSeries : Type := {
  ts_start : Z;
  ts_pyr : Z;
  ts_data : list Q
}.

(** Modelled from the spec: the last period of a series. *)
Definition ts_end (x : TimeSeries) : Z :=
  (ts_start x + Z.of_nat (length (ts_data x)) - 1)%Z.

(** Modelled from the spec: the validation that two series cover the same
    range of periods. *)
Definition verify_eq_time_range (x y : TimeSeries) : result unit :=
  if (ts_start x =? ts_start y)%Z && (ts_end x =? ts_end y)%Z
     && (ts_pyr x =? ts_pyr y)%Z
  then Ok tt else Raise ValueError_range.

(** Modelled from the spec: the series [x] with other values, as a copy of
    [x] is after assignments [x[time] = v]. *)
Definition with_data (x : TimeSeries) (data : list Q) : TimeSeries :=
  {| ts_start := ts_start x; ts_pyr := ts_pyr x; ts_data := data |}.

(** The body of [for time, _ in enumerate(xcflo)]. *)
Definition tax_step (xtax_rate : TimeSeries) (time : nat) (res : TimeSeries)
  : result TimeSeries :=
  v ← getitem (ts_data res) time;
  if negb (Qle_bool v 0)
  then
    v ← getitem (ts_data res) time;
    r ← getitem (ts_data xtax_rate) time;
    data ← setitem (ts_data res) time (v * (r / 100));
    Ok (with_data res data)
  else
    data ← setitem (ts_data res) time 0;
    Ok (with_data res data).

(** The body of [for xcflo, xtax_rate in zip(cflo, tax_rate)].  (Both are
    series by their type, so the [TypeError] of the source cannot arise.) *)
Definition tax_series (pair : TimeSeries * TimeSeries)
  (retval : list TimeSeries) : result (list TimeSeries) :=
  let '(xcflo, xtax_rate) := pair in
  verify_eq_time_range xcflo xtax_rate;;
  res ← for_each (tax_step xtax_rate) (seq 0 (length (ts_data xcflo))) xcflo;
  Ok (retval ++ [res]).

Definition after_tax_cashflow (cflo tax_rate : value TimeSeries)
  : result (value TimeSeries) :=
  params ← vars2list [cflo; tax_rate];
  cflo ← getitem params 0;
  tax_rate ← getitem params 1;
  retval ← for_each tax_series (zip cflo tax_rate) [];
  if (length retval =? 1)%nat then res ← getitem retval 0; Ok (Scalar res)
  else Ok (PyList retval).

(** ** The schedule in closed form *)

(** The list [[f 0; ...; f (len - 1)]]. *)
Definition tabulate {A} (len : nat) (f : nat -> A) : list A :=
  f <$> seq 0 len.

Section ClosedForm.
Variables (pval pmt erate : Q) (due : Z) (nper : nat).

(** The payment of period [k]: none at period 0 when payments are due at
    the end, none at the last period when they are due at the start. *)
Definition pay_at (k : nat) : Q :=
  if (due =? 0)%Z && (k =? 0)%nat then 0
  else if (due =? 1)%Z && (k =? nper)%nat then 0
  else pmt.

(** The final balance of period [k]. *)
Fixpoint bal_at (k : nat) : Q :=
  match k with
  | O => pval + pay_at 0
  | S j => bal_at j + (pay_at (S j) + bal_at j * erate)
  end.

Definition beg_at (k : nat) : Q :=
  match k with
  | O => pval
  | S j => bal_at j
  end.

Definition int_at (k : nat) : Q :=
  match k with
  | O => 0
  | S j => bal_at j * erate
  end.

Definition prin_at (k : nat) : Q :=
  match k with
  | O => pay_at 0
  | S j => pay_at (S j) + bal_at j * erate
  end.

Definition closed_rows : rows :=
  let len := S nper in
  {| begbal := tabulate len beg_at;
     pmts := tabulate len pay_at;
     ipmt := tabulate len int_at;
     ppmt := tabulate len prin_at;
     rembal := tabulate len bal_at |}.
End ClosedForm.

(** [sum(l[1:])]: the sum of the entries of the periods [1..nper]. *)
Definition sum_from_1 (l : list Q) : Q := foldr Qplus 0 (drop 1 l).

(** The columns after the periods below [k] have been walked: the state
    of [amortize]'s loop when it enters period [k]. *)
Definition walk_state (pval pmt erate : Q) (due : Z) (nper k : nat) : rows :=
  let len := S nper in
  {| begbal := tabulate len (fun j => if (j <? k)%nat || (j =? 0)%nat
                                      then beg_at pval pmt erate due nper j
                                      else 0);
     pmts := tabulate len (pay_at pmt due nper);
     ipmt := tabulate len (fun j => if (j <? k)%nat
                                    then int_at pval pmt erate due nper j
                                    else 0);
     ppmt := tabulate len (fun j => if (j <? k)%nat
                                    then prin_at pval pmt erate due nper j
                                    else 0);
     rembal := tabulate len (fun j => if (j <? k)%nat
                                      then bal_at pval pmt erate due nper j
                                      else 0) |}.

(** ** Notions the properties are stated with *)

(** A value that equals the number [x]. *)
Definition returns (r : result (value Q)) (x : Q) : Prop :=
  exists y, r = Ok (Scalar y) /\ y == x.

(** [1 + (1+r) + ... + (1+r)^(k-1)] *)
Fixpoint geo (r : Q) (k : nat) : Q :=
  match k with
  | O => 0
  | S j => (1 + r) * geo r j + 1
  end.

(** The left side of the equation numpy solves, at a whole number [n] of
    periods:
    [fv + pv*(1+rate)**n + pmt*(1 + rate*when)/rate*((1+rate)**n - 1)],
    and [fv + pv + pmt*n] for [rate = 0]. *)
Definition annuity (rate : Q) (n : nat) (pv pmt fv when : Q) : Q :=
  fv + pv * (1 + rate) ^ Z.of_nat n
  + pmt * (if Qeq_bool rate 0 then inject_Z (Z.of_nat n)
           else (1 + rate * when) * ((1 + rate) ^ Z.of_nat n - 1) / rate).

(** numpy's functions are odd in the monetary arguments: with pv, fv and pmt
    negated, a solved amount is negated and a solved rate or number of
    periods is the same. *)
Class NumpyOdd (N : Numpy) : Prop := {
  np_pv_opp : forall rate nper pmt fv when,
    np_pv rate nper (- pmt) (- fv) when == - np_pv rate nper pmt fv when;
  np_fv_opp : forall rate nper pmt pv when,
    np_fv rate nper (- pmt) (- pv) when == - np_fv rate nper pmt pv when;
  np_nper_opp : forall rate pmt pv fv when,
    np_nper rate (- pmt) (- pv) (- fv) when == np_nper rate pmt pv fv when;
  np_pmt_opp : forall rate nper pv fv when,
    np_pmt rate nper (- pv) (- fv) when == - np_pmt rate nper pv fv when;
  np_rate_opp : forall nper pmt pv fv when,
    np_rate nper (- pmt) (- pv) (- fv) when == np_rate nper pmt pv fv when
}.

(** Two numbers of periods of the same type and value. *)
Definition number_eq (a b : number) : Prop :=
  match a, b with
  | Int x, Int y => x = y
  | Float x, Float y => x == y
  | _, _ => False
  end.

(** The resolved parameters of a call and of the call with the amounts
    negated. *)
Definition tvm_opp (t t' : tvm) : Prop :=
  t_pval t' == - t_pval t
  /\ t_fval t' == - t_fval t
  /\ t_pmt t' == - t_pmt t
  /\ t_nrate t' == t_nrate t
  /\ number_eq (t_nper t) (t_nper t').

(** Two sequences of the same length, each entry the negation of the
    other. *)
Definition opposite (l l' : list Q) : Prop :=
  Forall2 (fun x y => y == - x) l l'.

(** Four sequences, each the negation of its counterpart. *)
Definition opposite4 (a b : list Q * list Q * list Q * list Q) : Prop :=
  let '(principal, interest, payment, balance) := a in
  let '(principal', interest', payment', balance') := b in
  opposite principal principal' /\ opposite interest interest'
  /\ opposite payment payment' /\ opposite balance balance'.

(** Two results that fail alike or succeed with related values. *)
Definition result_rel {A} (R : A -> A -> Prop) (r r' : result A) : Prop :=
  match r, r' with
  | Ok a, Ok b => R a b
  | Raise e, Raise e' => e = e'
  | _, _ => False
  end.

(** The arguments [tvmm] hands to numpy: pyr and the supplied parameters,
    without the supplied pmt when all five are supplied. *)
Definition tvmm_operands (pval fval pmt nrate nper : option (value Q))
  (pyr : value Q) : list (value Q) :=
  let numnone := (is_none pval + is_none fval + is_none nper
                  + is_none pmt + is_none nrate)%nat in
  let pmt := if (numnone =? 0)%nat then None else pmt in
  pyr :: omap (fun supplied => supplied) [pval; fval; nper; pmt; nrate].

(** The entry at time [t] of the taxed series. *)
Definition taxed (cflo tax_rate : list Q) (t : nat) : Q :=
  let v := nth t cflo 0 in
  if negb (Qle_bool v 0) then v * (nth t tax_rate 0 / 100) else 0.

(** The series when the times below [k] have been taxed. *)
Definition tax_state (xcflo xtax_rate : TimeSeries) (k : nat) : TimeSeries :=
  with_data xcflo
    (tabulate (length (ts_data xcflo))
       (fun j => if (j <? k)%nat
                 then taxed (ts_data xcflo) (ts_data xtax_rate) j
                 else nth j (ts_data xcflo) 0)).

(** An amount as the tables of the source print it ([{:12.2f}]), in
    hundredths. *)
Definition cents (x : Q) : Z := Qfloor (x * 100 + (1 # 2)).

(** ** basics.pvfv, basics.pmtfv, basics.pvpmt *)

(** [tvmm] with [pmt=0] and [due=0]. *)
Definition pvfv `{Numpy} (pval fval nrate nper : option (value Q))
  (pyr : value Q) : result (value Q) :=
  tvmm pval fval (Some (Scalar 0)) nrate nper 0 pyr.

(** [tvmm] with [pval=0] and [due=0]. *)
Definition pmtfv `{Numpy} (pmt fval nrate nper : option (value Q))
  (pyr : value Q) : result (value Q) :=
  tvmm (Some (Scalar 0)) fval pmt nrate nper 0 pyr.

(** [tvmm] with [fval=0] and [due=0]. *)
Definition pvpmt `{Numpy} (pmt pval nrate nper : option (value Q))
  (pyr : value Q) : result (value Q) :=
  tvmm pval (Some (Scalar 0)) pmt nrate nper 0 pyr.

(** ** gcashcomp: discount and compound factors *)

(** The objects the functions of [gcashcomp] are called with: a series, an
    [int], a [float], or [None].  (A [base_date] may also be a tuple, which
    the source turns into an index with [gtimeseries._timeid2index]; that
    function is not among the sources and tuples are left out.) *)
Inductive pyobj : Type :=
| OSeries (x : TimeSeries)
| OInt (z : Z)
| OFloat (q : Q)
| ONone.

(** [a / b] on Python numbers. *)
Definition py_div (a b : Q) : result Q :=
  if Qeq_bool b 0 then Raise ZeroDivisionError else Ok (a / b).

(** A list comprehension [[f x for x in l]]. *)
Fixpoint comprehension {A B} (f : A -> result B) (l : list A)
  : result (list B) :=
  match l with
  | [] => Ok []
  | x :: l' => y ← f x; ys ← comprehension f l'; Ok (y :: ys)
  end.

(** The body of the first loop of [to_discount_factor]. *)
Definition discount_step (index : nat) (factor : list Q)
  : result (list Q) :=
  match index with
  | O =>
      f ← getitem factor 0;
      y ← py_div 1 (1 + f);
      setitem factor 0 y
  | S previous =>
      fp ← getitem factor previous;
      f ← getitem factor index;
      y ← py_div fp (1 + f);
      setitem factor index y
  end.

(** [factor[base_date]] needs an [int]; a negative one counts from the
    end. *)
Definition base_index (len : nat) (base_date : pyobj) : result nat :=
  match base_date with
  | OInt z => py_index len z
  | _ => Raise TypeError
  end.

(** [to_discount_factor(nrate, base_date)] *)
Definition to_discount_factor (nrate : TimeSeries) (base_date : pyobj)
  : result (list Q) :=
  prate ← comprehension
             (fun x => y ← py_div x (inject_Z (ts_pyr nrate)); Ok (y / 100))
             (ts_data nrate);
  factor ← for_each discount_step (seq 0 (length prate)) prate;
  i ← base_index (length factor) base_date;
  div ← getitem factor i;
  for_each (fun index factor =>
              f ← getitem factor index;
              y ← py_div f div;
              setitem factor index y)
    (seq 0 (length factor)) factor.

(** [to_compound_factor(nrate, base_date)] *)
Definition to_compound_factor (nrate : TimeSeries) (base_date : pyobj)
  : result (list Q) :=
  factor ← to_discount_factor nrate base_date;
  for_each (fun time factor =>
              f ← getitem factor time;
              y ← py_div 1 f;
              setitem factor time y)
    (seq 0 (length factor)) factor.

(** ** gcashcomp.const2curr, curr2const, currency_conversion *)

(** [isinstance(x, TimeSeries)], or the [TypeError] the source raises. *)
Definition as_series (x : pyobj) : result TimeSeries :=
  match x with
  | OSeries s => Ok s
  | _ => Raise TypeError
  end.

(** The number an exchange rate is; multiplying a value by [None] is a
    [TypeError], and a series as exchange rate is taken to be one too. *)
Definition as_number (x : pyobj) : result Q :=
  match x with
  | OInt z => Ok (inject_Z z)
  | OFloat q => Ok q
  | _ => Raise TypeError
  end.

(** [result[time] *= factor[time]] *)
Definition scale_step (factor : list Q) (time : nat) (res : TimeSeries)
  : result TimeSeries :=
  v ← getitem (ts_data res) time;
  f ← getitem factor time;
  data ← setitem (ts_data res) time (v * f);
  Ok (with_data res data).

(** [if len(retval) == 1: return retval[0]] and [return retval] *)
Definition unwrap_single (retval : list TimeSeries)
  : result (value TimeSeries) :=
  if (length retval =? 1)%nat then res ← getitem retval 0; Ok (Scalar res)
  else Ok (PyList retval).

(** The body of the loop of [const2curr] and of [curr2const], which differ
    in the factor they take. *)
Definition convert_series
  (to_factor : TimeSeries -> pyobj -> result (list Q))
  (xs : pyobj * pyobj * pyobj) (retval : list TimeSeries)
  : result (list TimeSeries) :=
  let '(xcflo, xinflation, xbase_date) := xs in
  xcflo ← as_series xcflo;
  xinflation ← as_series xinflation;
  verify_eq_time_range xcflo xinflation;;
  factor ← to_factor xinflation xbase_date;
  res ← for_each (scale_step factor) (seq 0 (length (ts_data xcflo))) xcflo;
  Ok (retval ++ [res]).

Definition convert (to_factor : TimeSeries -> pyobj -> result (list Q))
  (cflo inflation base_date : value pyobj) : result (value TimeSeries) :=
  params ← vars2list [cflo; inflation; base_date];
  cflo ← getitem params 0;
  inflation ← getitem params 1;
  base_date ← getitem params 2;
  retval ← for_each (convert_series to_factor)
             (zip (zip cflo inflation) base_date) [];
  unwrap_single retval.

(** [const2curr(cflo, inflation, base_date)] *)
Definition const2curr : value pyobj -> value pyobj -> value pyobj ->
                        result (value TimeSeries) :=
  convert to_compound_factor.

(** [curr2const(cflo, inflation, base_date)] *)
Definition curr2const : value pyobj -> value pyobj -> value pyobj ->
                        result (value TimeSeries) :=
  convert to_discount_factor.

(** [result[time] *= xexchange_rate] *)
Definition exchange_step (xexchange_rate : pyobj) (time : nat)
  (res : TimeSeries) : result TimeSeries :=
  v ← getitem (ts_data res) time;
  e ← as_number xexchange_rate;
  data ← setitem (ts_data res) time (v * e);
  Ok (with_data res data).

(** [result[time] *= xexchange_rate * factor[time]] *)
Definition devaluation_step (xexchange_rate : pyobj) (factor : list Q)
  (time : nat) (res : TimeSeries) : result TimeSeries :=
  v ← getitem (ts_data res) time;
  e ← as_number xexchange_rate;
  f ← getitem factor time;
  data ← setitem (ts_data res) time (v * (e * f));
  Ok (with_data res data).

(** The body of the loop of [currency_conversion]. *)
Definition currency_series (xs : pyobj * pyobj * pyobj * pyobj)
  (retval : list TimeSeries) : result (list TimeSeries) :=
  let '(xcflo, xexchange_rate, xdevaluation, xbase_date) := xs in
  xcflo ← as_series xcflo;
  res ← match xdevaluation with
        | ONone =>
            for_each (exchange_step xexchange_rate)
              (seq 0 (length (ts_data xcflo))) xcflo
        | _ =>
            xdevaluation ← as_series xdevaluation;
            verify_eq_time_range xcflo xdevaluation;;
            factor ← to_compound_factor xdevaluation xbase_date;
            for_each (devaluation_step xexchange_rate factor)
              (seq 0 (length (ts_data xcflo))) xcflo
        end;
  Ok (retval ++ [res]).

(** [currency_conversion(cflo, exchange_rate, devaluation, base_date)] *)
Definition currency_conversion
  (cflo exchange_rate devaluation base_date : value pyobj)
  : result (value TimeSeries) :=
  params ← vars2list [cflo; exchange_rate; devaluation; base_date];
  cflo ← getitem params 0;
  exchange_rate ← getitem params 1;
  devaluation ← getitem params 2;
  base_date ← getitem params 3;
  retval ← for_each currency_series
             (zip (zip (zip cflo exchange_rate) devaluation) base_date) [];
  unwrap_single retval.

(** ** The factors in closed form *)

(** [[x/nrate.pyr/100 for x in nrate.data]] where [nrate.pyr] is not 0. *)
Definition prates (nrate : TimeSeries) : list Q :=
  (fun x => x / inject_Z (ts_pyr nrate) / 100) <$> ts_data nrate.

(** The factor of period [k] after the first loop of [to_discount_factor]:
    the product of [1/(1 + prate[j])] over the periods [j <= k]. *)
Fixpoint disc_at (prate : list Q) (k : nat) : Q :=
  match k with
  | O => 1 / (1 + nth 0 prate 0)
  | S j => disc_at prate j / (1 + nth (S j) prate 0)
  end.

(** The discount and the compound factor of period [t] for the base period
    [b]. *)
Definition discount_at (prate : list Q) (b t : nat) : Q :=
  disc_at prate t / disc_at prate b.

Definition compound_at (prate : list Q) (b t : nat) : Q :=
  1 / discount_at prate b t.

(** No period has the rate -100 %, at which the source divides by zero. *)
Definition rates_defined (prate : list Q) : Prop :=
  forall k, (k < length prate)%nat -> ~ 1 + nth k prate 0 == 0.

(** The list of factors when the first loop of [to_discount_factor] enters
    period [k]. *)
Definition disc_state (prate : list Q) (k : nat) : list Q :=
  tabulate (length prate)
    (fun j => if (j <? k)%nat then disc_at prate j else nth j prate 0).

(** ** The two loops of [vars2list] *)

(** The length [vars2list] settles on: the [max] over the lists, from
    [len]. *)
Definition longest {A} (params : list (value A)) (len : nat) : nat :=
  fold_left (fun len param =>
               match param with
               | PyList l => Nat.max len (length l)
               | Scalar _ => len
               end) params len.

(** The check of the lengths in [vars2list]. *)
Definition same_lengths {A} (params : list (value A)) (len : nat)
  : result unit :=
  for_each (fun param (_ : unit) =>
              match param with
              | PyList l =>
                  if negb (length l =? len)%nat
                  then Raise Exception_lengths else Ok tt
              | Scalar _ => Ok tt
              end) params tt.

(** * Properties *)

(** ** The monad of results *)

Lemma bind_assoc {A B C} (m : result A) (f : A -> result B)
  (g : B -> result C) :
  (m ≫= f) ≫= g = m ≫= (fun a => f a ≫= g).
Proof. by destruct m. Qed.

(** ** Lists given by their entries *)

Section Tabulate.
Context {A : Type}.
Implicit Types (f g : nat -> A) (len i : nat).
Local Open Scope nat_scope.

Lemma length_tabulate len f : length (tabulate len f) = len.
Proof. unfold tabulate. by rewrite length_fmap, length_seq. Qed.

Lemma lookup_tabulate len f i :
  i < len -> tabulate len f !! i = Some (f i).
Proof.
  intros Hi. unfold tabulate.
  by rewrite list_lookup_fmap, lookup_seq_lt.
Qed.

Lemma lookup_tabulate_ge len f i : len <= i -> tabulate len f !! i = None.
Proof. intros Hi. apply lookup_ge_None_2. by rewrite length_tabulate. Qed.

Lemma tabulate_ext len f g :
  (forall i, i < len -> f i = g i) -> tabulate len f = tabulate len g.
Proof.
  intros Hfg. apply list_eq. intros i.
  destruct (decide (i < len)) as [Hi|Hi].
  - rewrite !lookup_tabulate by done. f_equal. auto.
  - rewrite !lookup_tabulate_ge by lia. done.
Qed.

Lemma nth_tabulate len f i d : i < len -> nth i (tabulate len f) d = f i.
Proof. intros Hi. apply nth_lookup_Some. by apply lookup_tabulate. Qed.

Lemma replicate_tabulate len (x : A) :
  replicate len x = tabulate len (fun _ => x).
Proof.
  apply list_eq. intros i. destruct (decide (i < len)) as [Hi|Hi].
  - rewrite lookup_tabulate by done. by apply lookup_replicate_2.
  - rewrite lookup_tabulate_ge by lia. apply lookup_replicate_None. lia.
Qed.

Lemma getitem_tabulate len f i :
  i < len -> getitem (tabulate len f) i = Ok (f i).
Proof. intros Hi. unfold getitem. by rewrite lookup_tabulate. Qed.

Lemma setitem_tabulate len f i (x : A) :
  i < len ->
  setitem (tabulate len f) i x
  = Ok (tabulate len (fun j => if j =? i then x else f j)).
Proof.
  intros Hi. unfold setitem. rewrite length_tabulate.
  destruct (Nat.ltb_spec i len) as [_|?]; [|lia]. f_equal.
  apply list_eq. intros j. destruct (decide (j < len)) as [Hj|Hj].
  - rewrite lookup_tabulate by done.
    destruct (Nat.eqb_spec j i) as [->|Hne].
    + apply list_lookup_insert_eq. by rewrite length_tabulate.
    + rewrite list_lookup_insert_ne by done. by apply lookup_tabulate.
  - rewrite lookup_tabulate_ge by lia. apply lookup_ge_None_2.
    rewrite length_insert, length_tabulate. lia.
Qed.
End Tabulate.

(** ** The walk of [amortize] computes the closed form *)

Ltac walk_entry :=
  repeat match goal with
    | |- context [Nat.ltb ?a ?b] => destruct (Nat.ltb_spec a b)
    | |- context [Nat.eqb ?a ?b] => destruct (Nat.eqb_spec a b)
    end;
  subst; simpl; try reflexivity; try lia;
  try match goal with
    | i : nat |- _ => destruct i; [reflexivity | lia]
    end.

Section Walk.
Variables (pval pmt erate : Q) (due : Z) (nper : nat).
Local Open Scope nat_scope.

Lemma period_step_walk k :
  k < S nper ->
  period_step erate k (walk_state pval pmt erate due nper k)
  = Ok (walk_state pval pmt erate due nper (S k)).
Proof.
  intros Hk. unfold period_step, walk_state.
  destruct k as [|j]; cbn [begbal pmts ipmt ppmt rembal];
    repeat (first [ rewrite getitem_tabulate by lia
                  | rewrite setitem_tabulate by lia ];
            cbn [mbind result_bind]);
    f_equal; f_equal; apply tabulate_ext; intros i Hi; walk_entry.
Qed.

Lemma for_each_walk m : forall k,
  k + m <= S nper ->
  for_each (period_step erate) (seq k m)
    (walk_state pval pmt erate due nper k)
  = Ok (walk_state pval pmt erate due nper (k + m)).
Proof.
  induction m as [|m IH]; intros k Hk; cbn [seq for_each].
  - by rewrite Nat.add_0_r.
  - rewrite period_step_walk by lia. cbn [mbind result_bind].
    rewrite IH by lia. do 2 f_equal. lia.
Qed.

Lemma walk_state_end :
  walk_state pval pmt erate due nper (S nper)
  = closed_rows pval pmt erate due nper.
Proof.
  unfold walk_state, closed_rows.
  f_equal; apply tabulate_ext; intros i Hi; walk_entry.
Qed.

Lemma walk_state_start :
  {| begbal := tabulate (S nper) (fun j => if j =? 0 then pval else 0%Q);
     pmts := tabulate (S nper) (pay_at pmt due nper);
     ipmt := tabulate (S nper) (fun _ => 0%Q);
     ppmt := tabulate (S nper) (fun _ => 0%Q);
     rembal := tabulate (S nper) (fun _ => 0%Q) |}
  = walk_state pval pmt erate due nper 0.
Proof.
  unfold walk_state. f_equal; apply tabulate_ext; intros i Hi; walk_entry.
Qed.

Lemma py_index_last : py_index (S nper) (Z.of_nat nper) = Ok nper.
Proof.
  unfold py_index.
  destruct (Z.leb_spec 0 (Z.of_nat nper)); [|lia].
  destruct (Z.ltb_spec (Z.of_nat nper) (Z.of_nat (S nper))); [|lia].
  by rewrite Nat2Z.id.
Qed.
End Walk.

Lemma schedule_closed t due pyr (n : nat) :
  ~ pyr == 0 ->
  round_nper (t_nper t) = Int (Z.of_nat n) ->
  schedule t due pyr
  = Ok (closed_rows (t_pval t) (t_pmt t) (t_nrate t / pyr / 100) due n).
Proof.
  intros Hpyr Hn. unfold schedule. rewrite Hn.
  destruct (Qeq_bool pyr 0) eqn:E; [by apply Qeq_bool_iff in E|].
  cbn [mbind result_bind].
  replace (Z.to_nat (Z.of_nat n + 1)) with (S n) by lia.
  rewrite !replicate_tabulate.
  assert (Hpmt :
    (pmt ← (if (due =? 0)%Z
            then setitem (tabulate (S n) (fun _ => t_pmt t)) 0 0
            else Ok (tabulate (S n) (fun _ => t_pmt t)));
     (if (due =? 1)%Z
      then i ← py_index (length pmt) (Z.of_nat n); setitem pmt i 0
      else Ok pmt))
    = Ok (tabulate (S n) (pay_at (t_pmt t) due n))).
  { destruct (Z.eqb_spec due 0) as [->|H0].
    - rewrite setitem_tabulate by lia. done.
    - cbn [mbind result_bind]. destruct (Z.eqb_spec due 1) as [->|H1].
      + rewrite length_tabulate, py_index_last. cbn [mbind result_bind].
        rewrite setitem_tabulate by lia. done.
      + f_equal. apply tabulate_ext. intros i Hi. unfold pay_at.
        destruct (Z.eqb_spec due 0), (Z.eqb_spec due 1); done. }
  rewrite <- bind_assoc, Hpmt. cbn [mbind result_bind].
  rewrite setitem_tabulate by lia. cbn [mbind result_bind].
  rewrite (walk_state_start _ _ (t_nrate t / pyr / 100)).
  rewrite (for_each_walk _ _ _ _ _ (S n) 0%nat) by lia.
  by rewrite walk_state_end.
Qed.

(** ** Which parameter is solved *)

(** C1 (as the code has it).  When all five of pval, fval, pmt, nrate and
    nper are supplied, the supplied pmt is discarded and the payment is what
    is solved, from pval, fval, nper and the supplied nrate: [tvmm] returns
    what it returns with pmt unset, numpy's [pmt], and [amortize] builds the
    schedule it builds with pmt unset. *)
Theorem over_determined_solves_pmt `{Numpy} :
  (forall (pval fval pmt nrate nper : value Q) (due : Z) (pyr : value Q),
      tvmm (Some pval) (Some fval) (Some pmt) (Some nrate) (Some nper) due pyr
      = tvmm (Some pval) (Some fval) None (Some nrate) (Some nper) due pyr
      /\ tvmm (Some pval) (Some fval) (Some pmt) (Some nrate) (Some nper)
           due pyr
         = np_map5 0 (fun nrate pyr nper pval fval =>
                        np_pmt (nrate / 100 / pyr) nper pval fval
                          (inject_Z due))
             nrate pyr nper pval fval)
  /\ (forall (pval fval pmt nrate : Q) (nper : number) (due : Z) (pyr : Q),
         amortize (Some pval) (Some fval) (Some pmt) (Some nrate) (Some nper)
           due pyr
         = amortize (Some pval) (Some fval) None (Some nrate) (Some nper)
             due pyr).
Proof. split; [split|]; reflexivity. Qed.

(** C1 fails as stated: with all five supplied, [tvmm] does not return a
    recomputed rate and does not disregard the supplied one.  For pval=100,
    fval=0, pmt=-1, nper=1 it returns the payment -110 when nrate=10 and
    -120 when nrate=20, while the rate solved from the other four (nrate
    unset) is -99. *)
Lemma over_determined_not_rate :
  returns (@tvmm numpy_exact (Some (Scalar 100)) (Some (Scalar 0))
             (Some (Scalar (-1))) (Some (Scalar 10)) (Some (Scalar 1))
             0 (Scalar 1)) (-110)
  /\ returns (@tvmm numpy_exact (Some (Scalar 100)) (Some (Scalar 0))
                (Some (Scalar (-1))) (Some (Scalar 20)) (Some (Scalar 1))
                0 (Scalar 1)) (-120)
  /\ returns (@tvmm numpy_exact (Some (Scalar 100)) (Some (Scalar 0))
                (Some (Scalar (-1))) None (Some (Scalar 1))
                0 (Scalar 1)) (-99).
Proof. repeat split; eexists; (split; [vm_compute; reflexivity|reflexivity]). Qed.

(** C8.  A payment supplied as exactly zero is replaced by 0.0000001: both
    [tvmm] and [amortize] return, for pmt = 0, what they return for
    pmt = 0.0000001. *)
Theorem zero_pmt_is_tiny_pmt `{Numpy} :
  (forall (pval fval nrate nper : option (value Q)) (due : Z) (pyr : value Q),
      tvmm pval fval (Some (Scalar 0)) nrate nper due pyr
      = tvmm pval fval (Some (Scalar (1 # 10000000))) nrate nper due pyr)
  /\ (forall (pval fval nrate : option Q) (nper : option number)
        (due : Z) (pyr : Q),
         amortize pval fval (Some 0) nrate nper due pyr
         = amortize pval fval (Some (1 # 10000000)) nrate nper due pyr).
Proof.
  split; intros.
  - unfold tvmm. destruct pval, fval, nrate, nper; reflexivity.
  - unfold amortize, amortize_rows, resolve.
    destruct pval, fval, nrate, nper; reflexivity.
Qed.

(** ** The schedule *)

Section Amortize.
Context `{Numpy}.
Variables (pval fval pmt nrate : option Q) (nper : option number).
Variables (due : Z) (pyr : Q).

(** Where the parameters resolve to [t] and to [n >= 0] whole periods,
    [amortize] returns the columns of the closed form. *)
Lemma amortize_rows_closed t (n : nat) :
  resolve pval fval pmt nrate nper due pyr = Ok t ->
  round_nper (t_nper t) = Int (Z.of_nat n) ->
  ~ pyr == 0 ->
  amortize_rows pval fval pmt nrate nper due pyr
  = Ok (closed_rows (t_pval t) (t_pmt t) (t_nrate t / pyr / 100) due n).
Proof.
  intros Ht Hn Hpyr. unfold amortize_rows. rewrite Ht.
  cbn [mbind result_bind]. by apply schedule_closed.
Qed.

Lemma amortize_closed t (n : nat) :
  resolve pval fval pmt nrate nper due pyr = Ok t ->
  round_nper (t_nper t) = Int (Z.of_nat n) ->
  ~ pyr == 0 ->
  let erate := t_nrate t / pyr / 100 in
  amortize pval fval pmt nrate nper due pyr
  = Ok (tabulate (S n) (prin_at (t_pval t) (t_pmt t) erate due n),
        tabulate (S n) (int_at (t_pval t) (t_pmt t) erate due n),
        tabulate (S n) (pay_at (t_pmt t) due n),
        tabulate (S n) (bal_at (t_pval t) (t_pmt t) erate due n)).
Proof.
  intros Ht Hn Hpyr erate. unfold amortize.
  by rewrite (amortize_rows_closed t n).
Qed.

(** C3.  For every call that resolves to a whole number [n >= 0] of periods,
    [amortize] returns four sequences of length [n + 1], the last three of
    its table with the beginning balances, and at every period
    [1 <= k <= n]: the beginning balance is the final balance of period
    [k - 1], the interest is the beginning balance times
    [nrate / pyr / 100], the principal is the payment plus the interest,
    and the final balance is the beginning balance plus the principal. *)
Theorem amortize_recurrence t (n : nat) :
  resolve pval fval pmt nrate nper due pyr = Ok t ->
  round_nper (t_nper t) = Int (Z.of_nat n) ->
  ~ pyr == 0 ->
  exists s,
    amortize_rows pval fval pmt nrate nper due pyr = Ok s
    /\ amortize pval fval pmt nrate nper due pyr
       = Ok (ppmt s, ipmt s, pmts s, rembal s)
    /\ length (ppmt s) = S n /\ length (ipmt s) = S n
    /\ length (pmts s) = S n /\ length (rembal s) = S n
    /\ forall k, (1 <= k <= n)%nat ->
         nth k (begbal s) 0 = nth (k - 1) (rembal s) 0
         /\ nth k (ipmt s) 0
            = nth k (begbal s) 0 * (t_nrate t / pyr / 100)
         /\ nth k (ppmt s) 0 = nth k (pmts s) 0 + nth k (ipmt s) 0
         /\ nth k (rembal s) 0 = nth k (begbal s) 0 + nth k (ppmt s) 0.
Proof.
  intros Ht Hn Hpyr.
  pose proof (amortize_rows_closed t n Ht Hn Hpyr) as Hrows.
  eexists. split; [exact Hrows|].
  split; [unfold amortize; by rewrite Hrows|].
  cbn [closed_rows begbal pmts ipmt ppmt rembal].
  rewrite !length_tabulate. repeat split; try reflexivity.
  all: destruct k as [|j]; [lia|].
  all: rewrite ?nth_tabulate by lia.
  all: replace (S j - 1)%nat with j by lia; reflexivity.
Qed.

(** C4 (as the code has it).  With payments due at the end (due = 0) row
    0 has no payment and its final balance is pval.  With payments due at
    the start (due = 1) the payment of the last row is zero and, when
    there is at least one period, row 0 carries the first payment:
    payment[0] = pmt and balance[0] = pval + pmt; with no period, row 0 is
    the last row, so its payment is zero and its balance is pval. *)
Theorem amortize_seed_row t (n : nat) :
  resolve pval fval pmt nrate nper due pyr = Ok t ->
  round_nper (t_nper t) = Int (Z.of_nat n) ->
  ~ pyr == 0 ->
  exists principal interest payment balance,
    amortize pval fval pmt nrate nper due pyr
    = Ok (principal, interest, payment, balance)
    /\ (due = 0%Z ->
        nth 0 payment 0 = 0 /\ nth 0 balance 0 == t_pval t)
    /\ (due = 1%Z ->
        nth n payment 0 = 0
        /\ ((1 <= n)%nat ->
            nth 0 payment 0 = t_pmt t
            /\ nth 0 balance 0 = t_pval t + t_pmt t)
        /\ (n = 0%nat ->
            nth 0 payment 0 = 0 /\ nth 0 balance 0 == t_pval t)).
Proof.
  intros Ht Hn Hpyr. do 4 eexists.
  split; [by apply (amortize_closed t n)|].
  rewrite !nth_tabulate by lia. cbn [bal_at]. unfold pay_at.
  split; [intros ->|intros ->; split; [|split]]; cbn [Z.eqb andb].
  - split; [reflexivity|]. cbn. ring.
  - by rewrite Nat.eqb_refl.
  - intros Hn1. destruct (Nat.eqb_spec 0 n) as [<-|_]; [lia|]. done.
  - intros ->. cbn. split; [reflexivity|ring].
Qed.
End Amortize.

(** C3 at pval=100, fval=0, nrate=10, nper=5 (the payment is solved). *)
Lemma amortize_recurrence_witness :
  exists t,
    @resolve numpy_exact (Some 100) (Some 0) None (Some 10) (Some (Int 5)) 0 1
    = Ok t
    /\ exists s,
      @amortize_rows numpy_exact (Some 100) (Some 0) None (Some 10)
        (Some (Int 5)) 0 1 = Ok s
      /\ @amortize numpy_exact (Some 100) (Some 0) None (Some 10)
           (Some (Int 5)) 0 1
         = Ok (ppmt s, ipmt s, pmts s, rembal s)
      /\ length (ppmt s) = 6%nat /\ length (ipmt s) = 6%nat
      /\ length (pmts s) = 6%nat /\ length (rembal s) = 6%nat
      /\ forall k, (1 <= k <= 5)%nat ->
           nth k (begbal s) 0 = nth (k - 1) (rembal s) 0
           /\ nth k (ipmt s) 0 = nth k (begbal s) 0 * (t_nrate t / 1 / 100)
           /\ nth k (ppmt s) 0 = nth k (pmts s) 0 + nth k (ipmt s) 0
           /\ nth k (rembal s) 0 = nth k (begbal s) 0 + nth k (ppmt s) 0.
Proof.
  eexists. split; [reflexivity|].
  apply (@amortize_recurrence numpy_exact (Some 100) (Some 0) None (Some 10)
           (Some (Int 5)) 0 1 _ 5%nat).
  - reflexivity.
  - reflexivity.
  - intros E. vm_compute in E. discriminate E.
Defined.

(** C4 fails as stated where there is no period: for pval=100, pmt=-10,
    nrate=10, nper=0 and due=1, row 0 is also the last row; its payment is 0,
    not pmt = -10, and its balance is 100, not pval + pmt = 90. *)
Lemma due_without_periods :
  @amortize numpy_exact (Some 100) None (Some (-10)) (Some 10)
    (Some (Int 0)) 1 1
  = Ok ([0], [0], [0], [100]).
Proof. vm_compute. reflexivity. Qed.

(** C4 at pval=100, fval=0, nrate=10, nper=5 and due=1. *)
Lemma amortize_seed_row_witness :
  exists t,
    @resolve numpy_exact (Some 100) (Some 0) None (Some 10) (Some (Int 5)) 1 1
    = Ok t
    /\ exists principal interest payment balance,
      @amortize numpy_exact (Some 100) (Some 0) None (Some 10)
        (Some (Int 5)) 1 1
      = Ok (principal, interest, payment, balance)
      /\ (1%Z = 0%Z ->
          nth 0 payment 0 = 0 /\ nth 0 balance 0 == t_pval t)
      /\ (1%Z = 1%Z ->
          nth 5 payment 0 = 0
          /\ ((1 <= 5)%nat ->
              nth 0 payment 0 = t_pmt t
              /\ nth 0 balance 0 = t_pval t + t_pmt t)
          /\ (5%nat = 0%nat ->
              nth 0 payment 0 = 0 /\ nth 0 balance 0 == t_pval t)).
Proof.
  eexists. split; [reflexivity|].
  apply (@amortize_seed_row numpy_exact (Some 100) (Some 0) None (Some 10)
           (Some (Int 5)) 1 1 _ 5%nat).
  - reflexivity.
  - reflexivity.
  - intros E. vm_compute in E. discriminate E.
Defined.

(** ** The whole number of periods *)

Lemma Qfloor_unique (x : Q) (z : Z) :
  inject_Z z <= x -> x < inject_Z z + 1 -> Qfloor x = z.
Proof.
  intros Hle Hlt.
  pose proof (Qfloor_le x) as Hf. pose proof (Qlt_floor x) as Hf'.
  rewrite inject_Z_plus in Hf'. change (inject_Z 1) with 1 in Hf'.
  assert (inject_Z (Qfloor x) < inject_Z (z + 1)) as H1
    by (rewrite inject_Z_plus; change (inject_Z 1) with 1; lra).
  assert (inject_Z z < inject_Z (Qfloor x + 1)) as H2
    by (rewrite inject_Z_plus; change (inject_Z 1) with 1; lra).
  rewrite <- Zlt_Qlt in H1, H2. lia.
Qed.

Lemma Qceiling_unique (x : Q) (z : Z) :
  inject_Z z - 1 < x -> x <= inject_Z z -> Qceiling x = z.
Proof.
  intros Hlt Hle. unfold Qceiling.
  rewrite (Qfloor_unique (- x) (- z)); [lia|..];
    rewrite inject_Z_opp; lra.
Qed.

Lemma py_int_nonneg (x : Q) : 0 <= x -> py_int x = Qfloor x.
Proof.
  destruct x as [a b]. unfold Qle, py_int, Qfloor. cbn. intros Ha.
  apply Z.quot_div_nonneg; lia.
Qed.

Lemma py_int_inject_Z (z : Z) : py_int (inject_Z z) = z.
Proof. unfold py_int. cbn. apply Z.quot_1_r. Qed.

Lemma round_nper_Int (z : Z) : round_nper (Int z) = Int z.
Proof.
  unfold round_nper. cbn [number_Q]. rewrite py_int_inject_Z.
  by rewrite Qeq_bool_refl.
Qed.

Lemma round_nper_Float (q : Q) :
  ~ inject_Z (py_int q) == q ->
  round_nper (Float q) = Int (py_int (q + (9 # 10))).
Proof.
  intros Hq. unfold round_nper. cbn [number_Q].
  destruct (Qeq_bool (inject_Z (py_int q)) q) eqn:E; [|done].
  by apply Qeq_bool_iff in E.
Qed.

(** [int(q + 0.9)] is the ceiling of a positive [q] whose fractional part is
    at least 0.1, and its floor when the fractional part is smaller. *)
Lemma py_int_plus_09 (q : Q) :
  0 < q ->
  ((1 # 10) <= q - inject_Z (Qfloor q) ->
   py_int (q + (9 # 10)) = Qceiling q)
  /\ (q - inject_Z (Qfloor q) < (1 # 10) ->
      py_int (q + (9 # 10)) = Qfloor q).
Proof.
  intros Hq.
  pose proof (Qfloor_le q) as Hf. pose proof (Qlt_floor q) as Hf'.
  rewrite inject_Z_plus in Hf'. change (inject_Z 1) with 1 in Hf'.
  rewrite py_int_nonneg by lra. split; intros Hfrac.
  - rewrite (Qceiling_unique q (Qfloor q + 1));
      [|rewrite inject_Z_plus; change (inject_Z 1) with 1; lra..].
    apply Qfloor_unique; rewrite inject_Z_plus;
      change (inject_Z 1) with 1; lra.
  - apply Qfloor_unique; lra.
Qed.

(** C2 (as the code has it).  When the resolved nper is not a whole number,
    the walk takes [int(nper + 0.9)] periods, truncating towards zero: the
    four sequences have that many entries and one more.  For a positive
    nper this is its ceiling when its fractional part is at least 0.1 and
    its floor when the fractional part is below 0.1. *)
Theorem amortize_rounds_periods `{Numpy} (pval fval pmt nrate : option Q)
  (nper : option number) (due : Z) (pyr : Q) (t : tvm) (q : Q) :
  resolve pval fval pmt nrate nper due pyr = Ok t ->
  t_nper t = Float q ->
  ~ inject_Z (py_int q) == q ->
  (0 <= py_int (q + (9 # 10)))%Z ->
  ~ pyr == 0 ->
  (exists principal interest payment balance,
      amortize pval fval pmt nrate nper due pyr
      = Ok (principal, interest, payment, balance)
      /\ Z.of_nat (length principal) = (py_int (q + (9 # 10)) + 1)%Z
      /\ Z.of_nat (length interest) = (py_int (q + (9 # 10)) + 1)%Z
      /\ Z.of_nat (length payment) = (py_int (q + (9 # 10)) + 1)%Z
      /\ Z.of_nat (length balance) = (py_int (q + (9 # 10)) + 1)%Z)
  /\ (0 < q ->
      ((1 # 10) <= q - inject_Z (Qfloor q) ->
       py_int (q + (9 # 10)) = Qceiling q)
      /\ (q - inject_Z (Qfloor q) < (1 # 10) ->
          py_int (q + (9 # 10)) = Qfloor q)).
Proof.
  intros Ht Hq Hfrac Hpos Hpyr. split; [|apply py_int_plus_09].
  do 4 eexists. split.
  - apply (amortize_closed _ _ _ _ _ _ _ t
             (Z.to_nat (py_int (q + (9 # 10))))); [done| |done].
    rewrite Hq, round_nper_Float by done. f_equal. lia.
  - rewrite !length_tabulate. lia.
Qed.

(** C2 fails as stated: for nper = 4.0625 (pval=100, pmt=-10, nrate=10)
    the walk takes [int(4.9625) = 4] periods, rows 0 to 4, while the ceiling
    of nper is 5. *)
Lemma rounding_is_not_ceiling :
  (exists principal interest payment balance,
      @amortize numpy_exact (Some 100) None (Some (-10)) (Some 10)
        (Some (Float (65 # 16))) 0 1
      = Ok (principal, interest, payment, balance)
      /\ length principal = 5%nat /\ length interest = 5%nat
      /\ length payment = 5%nat /\ length balance = 5%nat)
  /\ Qceiling (65 # 16) = 5%Z.
Proof.
  split; [|reflexivity]. do 4 eexists.
  split; [vm_compute; reflexivity|]. repeat split.
Qed.

(** C2 at nper = 4.5 (pval=100, pmt=-10, nrate=10): five periods. *)
Lemma amortize_rounds_periods_witness :
  exists t,
    @resolve numpy_exact (Some 100) None (Some (-10)) (Some 10)
      (Some (Float (9 # 2))) 0 1 = Ok t
    /\ (exists principal interest payment balance,
          @amortize numpy_exact (Some 100) None (Some (-10)) (Some 10)
            (Some (Float (9 # 2))) 0 1
          = Ok (principal, interest, payment, balance)
          /\ Z.of_nat (length principal) = (py_int ((9 # 2) + (9 # 10)) + 1)%Z
          /\ Z.of_nat (length interest) = (py_int ((9 # 2) + (9 # 10)) + 1)%Z
          /\ Z.of_nat (length payment) = (py_int ((9 # 2) + (9 # 10)) + 1)%Z
          /\ Z.of_nat (length balance) = (py_int ((9 # 2) + (9 # 10)) + 1)%Z)
    /\ (0 < (9 # 2) ->
        ((1 # 10) <= (9 # 2) - inject_Z (Qfloor (9 # 2)) ->
         py_int ((9 # 2) + (9 # 10)) = Qceiling (9 # 2))
        /\ ((9 # 2) - inject_Z (Qfloor (9 # 2)) < (1 # 10) ->
            py_int ((9 # 2) + (9 # 10)) = Qfloor (9 # 2))).
Proof.
  eexists. split; [reflexivity|].
  eapply (@amortize_rounds_periods numpy_exact (Some 100) None (Some (-10))
            (Some 10) (Some (Float (9 # 2))) 0 1 _ (9 # 2)).
  - reflexivity.
  - reflexivity.
  - intros E. vm_compute in E. discriminate E.
  - vm_compute. discriminate.
  - intros E. vm_compute in E. discriminate E.
Defined.

(** ** The balance in closed form and the sum of the principal *)

Lemma Qpower_succ (a : Q) (k : nat) :
  a ^ Z.of_nat (S k) == a * a ^ Z.of_nat k.
Proof.
  rewrite Nat2Z.inj_succ, <- Z.add_1_l, Qpower_plus' by lia.
  by rewrite Qpower_1_r.
Qed.

Lemma geo_times_rate (r : Q) (k : nat) :
  geo r k * r == (1 + r) ^ Z.of_nat k - 1.
Proof.
  induction k as [|k IH].
  - change (0 * r == 1 - 1). ring.
  - rewrite Qpower_succ. cbn [geo].
    transitivity ((1 + r) * (geo r k * r) + r); [ring|].
    rewrite IH. ring.
Qed.

Lemma geo_nonzero_rate (r : Q) (k : nat) :
  ~ r == 0 -> geo r k == ((1 + r) ^ Z.of_nat k - 1) / r.
Proof.
  intros Hr. rewrite <- geo_times_rate. by field.
Qed.

Lemma geo_zero_rate (r : Q) (k : nat) :
  r == 0 -> geo r k == inject_Z (Z.of_nat k).
Proof.
  intros Hr. induction k as [|k IH].
  - reflexivity.
  - cbn [geo]. rewrite IH, Hr, Nat2Z.inj_succ, <- Z.add_1_r, inject_Z_plus.
    change (inject_Z 1) with 1. ring.
Qed.

Lemma annuity_geo (rate : Q) (n : nat) (pv pmt fv : Q) :
  annuity rate n pv pmt fv 0
  == fv + pv * (1 + rate) ^ Z.of_nat n + pmt * geo rate n.
Proof.
  unfold annuity. destruct (Qeq_bool rate 0) eqn:E.
  - apply Qeq_bool_iff in E. by rewrite geo_zero_rate.
  - apply Qeq_bool_neq in E. rewrite geo_nonzero_rate by done. by field.
Qed.

(** numpy's closed forms for the future value and for the payment solve
    the equation. *)
Lemma exact_growth_whole (rate : Q) (n : nat) :
  Exact.growth rate (inject_Z (Z.of_nat n)) = (1 + rate) ^ Z.of_nat n.
Proof. unfold Exact.growth. by rewrite Qfloor_Z. Qed.

Lemma annuity_exact_fv (rate : Q) (n : nat) (pv pmt when : Q) :
  annuity rate n pv pmt
    (Exact.fv rate (inject_Z (Z.of_nat n)) pmt pv when) when == 0.
Proof.
  unfold annuity, Exact.fv, Exact.fact. rewrite exact_growth_whole.
  set (g := (1 + rate) ^ Z.of_nat n).
  destruct (Qeq_bool rate 0); unfold Qdiv; ring.
Qed.

Lemma annuity_exact_pmt (rate : Q) (n : nat) (pv fv when : Q) :
  ~ Exact.fact rate (inject_Z (Z.of_nat n)) when == 0 ->
  annuity rate n pv
    (Exact.pmt rate (inject_Z (Z.of_nat n)) pv fv when) fv when == 0.
Proof.
  intros Hfact. unfold annuity, Exact.pmt.
  unfold Exact.fact in *. rewrite exact_growth_whole in *.
  set (g := (1 + rate) ^ Z.of_nat n) in *.
  destruct (Qeq_bool rate 0);
    [set (F := inject_Z (Z.of_nat n)) in *
    |set (F := (1 + rate * when) * (g - 1) / rate) in *];
    clearbody F g; by field.
Qed.

Section Balance.
Variables (pval pmt erate : Q) (nper : nat).

(** With payments at the end of the periods, the balance after [k] periods
    is pval grown over [k] periods plus the payments grown since made. *)
Lemma bal_at_closed (k : nat) :
  bal_at pval pmt erate 0 nper k
  == pval * (1 + erate) ^ Z.of_nat k + pmt * geo erate k.
Proof.
  induction k as [|k IH].
  - change (pval + 0 == pval * 1 + pmt * 0). ring.
  - rewrite Qpower_succ. cbn [bal_at geo]. rewrite IH.
    unfold pay_at. cbn [Z.eqb andb Nat.eqb]. ring.
Qed.

(** The principal of the periods [a+1 .. a+m] is what the balance changes
    by over them. *)
Lemma sum_prin_at (due : Z) (m : nat) : forall a : nat,
  foldr Qplus 0 (prin_at pval pmt erate due nper <$> seq (S a) m)
  == bal_at pval pmt erate due nper (a + m)
     - bal_at pval pmt erate due nper a.
Proof.
  induction m as [|m IH]; intros a.
  - rewrite Nat.add_0_r. cbn [seq fmap list_fmap foldr]. ring.
  - cbn [seq fmap list_fmap foldr]. rewrite IH.
    replace (a + S m)%nat with (S a + m)%nat by lia.
    cbn [bal_at prin_at Nat.add]. ring.
Qed.

Lemma sum_principal (due : Z) :
  sum_from_1 (tabulate (S nper) (prin_at pval pmt erate due nper))
  == bal_at pval pmt erate due nper nper - bal_at pval pmt erate due nper 0.
Proof. apply (sum_prin_at due nper 0%nat). Qed.
End Balance.

(** C5 (as the code has it).  With payments due at the end, a whole nper
    that needed no rounding, and resolved parameters that satisfy numpy's
    equation [fv + pv*(1+r)**n + pmt*((1+r)**n - 1)/r = 0], the balance of
    the last row is -fval and the principal of the periods 1..nper sums to
    -fval - pval: numpy counts fval with the sign of a cash flow, like
    pval, so the sum is fval - pval only for fval = 0. *)
Theorem principal_sum `{Numpy} (pval fval pmt nrate : option Q)
  (nper : option number) (pyr : Q) (t : tvm) (n : nat) :
  resolve pval fval pmt nrate nper 0 pyr = Ok t ->
  t_nper t = Int (Z.of_nat n) ->
  ~ pyr == 0 ->
  annuity (t_nrate t / pyr / 100) n (t_pval t) (t_pmt t) (t_fval t) 0 == 0 ->
  exists principal interest payment balance,
    amortize pval fval pmt nrate nper 0 pyr
    = Ok (principal, interest, payment, balance)
    /\ nth n balance 0 == - t_fval t
    /\ sum_from_1 principal == - t_fval t - t_pval t.
Proof.
  intros Ht Hn Hpyr Heq. do 4 eexists.
  split; [apply (amortize_closed _ _ _ _ _ _ _ t n);
          [done|by rewrite Hn, round_nper_Int|done]|].
  rewrite annuity_geo in Heq.
  rewrite nth_tabulate by lia. rewrite sum_principal, bal_at_closed.
  split.
  - lra.
  - cbn [bal_at]. unfold pay_at. cbn [Z.eqb andb Nat.eqb]. lra.
Qed.

(** C5 fails as stated for a nonzero fval: for pval=100, fval=-50,
    nrate=10, nper=1 (due=0) the payment is -60, the principal of period 1
    is -50 and the balance ends at 50 = -fval; the sum of the principal is
    -50, while fval - pval is -150. *)
Lemma principal_sum_not_fval_minus_pval :
  exists principal interest payment balance,
    @amortize numpy_exact (Some 100) (Some (-50)) None (Some 10)
      (Some (Int 1)) 0 1
    = Ok (principal, interest, payment, balance)
    /\ sum_from_1 principal == -50
    /\ ~ sum_from_1 principal == -50 - 100.
Proof.
  do 4 eexists. split; [vm_compute; reflexivity|].
  split; [reflexivity|]. intros E. vm_compute in E. discriminate E.
Qed.

(** C5 at pval=100, fval=-50, nrate=10, nper=2 (the payment is solved). *)
Lemma principal_sum_witness :
  exists t,
    @resolve numpy_exact (Some 100) (Some (-50)) None (Some 10)
      (Some (Int 2)) 0 1 = Ok t
    /\ exists principal interest payment balance,
      @amortize numpy_exact (Some 100) (Some (-50)) None (Some 10)
        (Some (Int 2)) 0 1
      = Ok (principal, interest, payment, balance)
      /\ nth 2 balance 0 == - t_fval t
      /\ sum_from_1 principal == - t_fval t - t_pval t.
Proof.
  eexists. split; [reflexivity|].
  apply (@principal_sum numpy_exact (Some 100) (Some (-50)) None (Some 10)
           (Some (Int 2)) 1 _ 2%nat).
  - reflexivity.
  - reflexivity.
  - intros E. vm_compute in E. discriminate E.
  - vm_compute. reflexivity.
Defined.

(** ** Sign symmetry *)

Lemma Qinv_opp (a : Q) : / - a == - / a.
Proof. destruct a as [[|p|p] d]; reflexivity. Qed.

Lemma Qdiv_opp_opp (a b : Q) : - a / - b == a / b.
Proof. unfold Qdiv. rewrite Qinv_opp. ring. Qed.

Lemma Qle_bool_proper (a b c d : Q) :
  a == b -> c == d -> Qle_bool a c = Qle_bool b d.
Proof.
  intros Hab Hcd. apply eq_true_iff_eq.
  rewrite !Qle_bool_iff. by rewrite Hab, Hcd.
Qed.

Lemma Qeq_bool_proper (a b c d : Q) :
  a == b -> c == d -> Qeq_bool a c = Qeq_bool b d.
Proof.
  intros Hab Hcd. apply eq_true_iff_eq.
  rewrite !Qeq_bool_iff. by rewrite Hab, Hcd.
Qed.

Lemma Qeq_bool_opp_0 (a : Q) : Qeq_bool (- a) 0 = Qeq_bool a 0.
Proof.
  apply eq_true_iff_eq. rewrite !Qeq_bool_iff.
  split; intros E; [rewrite <- (Qopp_involutive a), E|rewrite E]; reflexivity.
Qed.

Lemma log_ratio_proper (g x y : Q) (fuel : nat) : forall n,
  x == y -> Exact.log_ratio g x fuel n == Exact.log_ratio g y fuel n.
Proof.
  induction fuel as [|fuel IH]; intros n Hxy; cbn [Exact.log_ratio].
  - reflexivity.
  - rewrite (Qle_bool_proper (g ^ n) (g ^ n) x y),
      (Qle_bool_proper (g ^ (n + 1)) (g ^ (n + 1)) x y),
      (Qle_bool_proper x y (g ^ n) (g ^ n)),
      (Qle_bool_proper x y (g ^ (n + 1)) (g ^ (n + 1))) by done.
    destruct (_ || _); [by rewrite Hxy|by apply IH].
Qed.

Lemma g_div_gp_opp (r n p x y w : Q) :
  Exact.g_div_gp r n (- p) (- x) (- y) w == Exact.g_div_gp r n p x y w.
Proof.
  unfold Exact.g_div_gp. cbv zeta.
  rewrite <- Qdiv_opp_opp. apply Qdiv_comp; unfold Qdiv; ring.
Qed.

Lemma newton_opp (maxiter : nat) : forall rn n p x y w,
  Exact.newton maxiter rn n (- p) (- x) (- y) w
  = Exact.newton maxiter rn n p x y w.
Proof.
  induction maxiter as [|m IH]; intros; cbn [Exact.newton]; [done|].
  rewrite (Qred_complete (rn - Exact.g_div_gp rn n (- p) (- x) (- y) w)
             (rn - Exact.g_div_gp rn n p x y w))
    by (by rewrite g_div_gp_opp).
  by rewrite IH.
Qed.

(** numpy's closed forms are odd. *)
#[global] Instance numpy_exact_odd : NumpyOdd numpy_exact.
Proof.
  split; intros; cbn [np_pv np_fv np_nper np_pmt np_rate numpy_exact].
  - unfold Exact.pv, Qdiv. ring.
  - unfold Exact.fv. ring.
  - unfold Exact.nper. destruct (Qeq_bool rate 0).
    + rewrite <- (Qdiv_opp_opp (- (fv + pv)) pmt).
      apply Qdiv_comp; [ring|reflexivity].
    + apply log_ratio_proper.
      rewrite <- (Qdiv_opp_opp (- fv + pmt * (1 + rate * when) / rate)).
      apply Qdiv_comp; unfold Qdiv; ring.
  - unfold Exact.pmt, Qdiv. ring.
  - unfold Exact.rate. by rewrite newton_opp.
Qed.

Lemma py_int_opp (x : Q) : py_int (- x) = (- py_int x)%Z.
Proof. destruct x as [a b]. unfold py_int. cbn. apply Z.quot_opp_l. lia. Qed.

Lemma py_int_proper (x y : Q) : x == y -> py_int x = py_int y.
Proof.
  intros Hxy. destruct (Qlt_le_dec x 0) as [Hneg|Hpos].
  - assert (py_int (- x) = py_int (- y)) as Hopp.
    { rewrite !py_int_nonneg by lra. apply Qfloor_comp. by rewrite Hxy. }
    rewrite !py_int_opp in Hopp. lia.
  - rewrite !py_int_nonneg by lra. by apply Qfloor_comp.
Qed.

Lemma round_nper_rel (a b : number) :
  number_eq a b -> number_eq (round_nper a) (round_nper b).
Proof.
  destruct a as [x|x], b as [y|y]; cbn [number_eq]; try done.
  - intros ->. by rewrite round_nper_Int.
  - intros Hxy. unfold round_nper. cbn [number_Q].
    rewrite (py_int_proper x y), (Qeq_bool_proper _ (inject_Z (py_int y)) x y)
      by done.
    destruct (Qeq_bool _ _); cbn [negb number_eq]; [done|].
    apply py_int_proper. by rewrite Hxy.
Qed.

Lemma schedule_negative t due pyr (z : Z) :
  ~ pyr == 0 ->
  round_nper (t_nper t) = Int z ->
  (z < 0)%Z ->
  schedule t due pyr = Raise IndexError.
Proof.
  intros Hpyr Hn Hz. unfold schedule. rewrite Hn.
  destruct (Qeq_bool pyr 0) eqn:E; [by apply Qeq_bool_iff in E|].
  cbn [mbind result_bind].
  replace (Z.to_nat (z + 1)) with 0%nat by lia.
  destruct (Z.eqb_spec due 0) as [->|H0]; [done|].
  destruct (Z.eqb_spec due 1) as [->|H1]; [|done].
  cbn. unfold py_index.
  destruct (Z.leb_spec 0 z); [lia|].
  destruct (Z.leb_spec (- Z.of_nat 0) z); [lia|done].
Qed.

Lemma Forall2_tabulate {A} (R : A -> A -> Prop) (len : nat) (f g : nat -> A) :
  (forall i, (i < len)%nat -> R (f i) (g i)) ->
  Forall2 R (tabulate len f) (tabulate len g).
Proof.
  intros Hfg. apply Forall2_same_length_lookup_2.
  - by rewrite !length_tabulate.
  - intros i x y Hx Hy.
    assert (i < len)%nat as Hi
      by (apply lookup_lt_Some in Hx; by rewrite length_tabulate in Hx).
    rewrite lookup_tabulate in Hx, Hy by done.
    injection Hx as <-. injection Hy as <-. auto.
Qed.

Section Opposite.
Variables (pval pmt erate pval' pmt' erate' : Q) (due : Z) (nper : nat).
Hypothesis Hpval : pval' == - pval.
Hypothesis Hpmt : pmt' == - pmt.
Hypothesis Herate : erate' == erate.

Lemma pay_at_opp k : pay_at pmt' due nper k == - pay_at pmt due nper k.
Proof using Hpmt.
  unfold pay_at. destruct (_ && _); [reflexivity|].
  destruct (_ && _); [reflexivity|done].
Qed.

Lemma bal_at_opp k :
  bal_at pval' pmt' erate' due nper k == - bal_at pval pmt erate due nper k.
Proof using Hpval Hpmt Herate.
  induction k as [|k IH]; cbn [bal_at].
  - rewrite Hpval, pay_at_opp. ring.
  - rewrite IH, pay_at_opp, Herate. ring.
Qed.

Lemma closed_rows_opp :
  opposite4
    (let s := closed_rows pval pmt erate due nper in
     (ppmt s, ipmt s, pmts s, rembal s))
    (let s := closed_rows pval' pmt' erate' due nper in
     (ppmt s, ipmt s, pmts s, rembal s)).
Proof using Hpval Hpmt Herate.
  unfold opposite4, opposite, closed_rows. cbn [ppmt ipmt pmts rembal].
  repeat split; apply Forall2_tabulate; intros i Hi.
  - destruct i as [|i]; cbn [prin_at]; [apply pay_at_opp|].
    rewrite bal_at_opp, pay_at_opp, Herate. ring.
  - destruct i as [|i]; cbn [int_at]; [reflexivity|].
    rewrite bal_at_opp, Herate. ring.
  - apply pay_at_opp.
  - apply bal_at_opp.
Qed.
End Opposite.

Section SignSymmetry.
Context `{NumpyOdd}.

Lemma schedule_opp t t' due pyr :
  tvm_opp t t' ->
  result_rel opposite4
    (s ← schedule t due pyr; Ok (ppmt s, ipmt s, pmts s, rembal s))
    (s ← schedule t' due pyr; Ok (ppmt s, ipmt s, pmts s, rembal s)).
Proof.
  intros (Hpval & _ & Hpmt & Hnrate & Hnper).
  destruct (Qeq_bool pyr 0) eqn:E.
  { unfold schedule. rewrite E. done. }
  apply Qeq_bool_neq in E. apply round_nper_rel in Hnper.
  destruct (round_nper (t_nper t)) as [z|q] eqn:Hz,
    (round_nper (t_nper t')) as [z'|q'] eqn:Hz'; cbn [number_eq] in Hnper;
    try done.
  - subst z'. destruct (Z_lt_le_dec z 0) as [Hneg|Hpos].
    + by rewrite !(schedule_negative _ due pyr z).
    + rewrite <- (Z2Nat.id z) in Hz, Hz' by done.
      rewrite !(schedule_closed _ due pyr (Z.to_nat z)) by done.
      cbn [mbind result_bind result_rel].
      apply closed_rows_opp; [done..|]. by rewrite Hnrate.
  - unfold schedule. destruct (Qeq_bool pyr 0); [done|].
    cbn [mbind result_bind]. by rewrite Hz, Hz'.
Qed.

Lemma resolve_opp (pval fval pmt nrate : option Q) (nper : option number)
  (due : Z) (pyr : Q) :
  (forall p, pmt = Some p -> p == 0 ->
     (is_none pval + is_none fval + is_none nper + is_none nrate)%nat
     = 0%nat) ->
  result_rel tvm_opp
    (resolve pval fval pmt nrate nper due pyr)
    (resolve (Qopp <$> pval) (Qopp <$> fval) (Qopp <$> pmt) nrate nper
       due pyr).
Proof.
  intros Hzero.
  destruct pval as [pv|], fval as [fv|], pmt as [p|], nrate as [nr|],
    nper as [n|]; try reflexivity.
  all: try (assert (Qeq_bool p 0 = false) as Hp
             by (destruct (Qeq_bool p 0) eqn:E; [|done];
                 apply Qeq_bool_iff in E;
                 specialize (Hzero p eq_refl E); cbn in Hzero;
                 discriminate Hzero)).
  all: unfold resolve, tvmm, nonzero_pmt;
    cbn [is_none Nat.add Nat.ltb Nat.leb Nat.eqb fmap option_fmap option_map
         mbind result_bind need scalar np_map5 broadcast broadcast2 shape_of
         map np_build item].
  all: repeat (progress
         (rewrite ?Qeq_bool_opp_0, ?Hp;
          cbn [is_none Nat.add Nat.ltb Nat.leb Nat.eqb fmap option_fmap
               option_map mbind result_bind need scalar np_map5 broadcast
               broadcast2 shape_of map np_build item result_rel])).
  all: unfold tvm_opp;
    cbn [t_pval t_fval t_pmt t_nrate t_nper number_eq];
    rewrite ?np_pv_opp, ?np_fv_opp, ?np_nper_opp, ?np_pmt_opp, ?np_rate_opp;
    repeat split; try reflexivity.
  all: destruct n; reflexivity.
Qed.

(** C6 (as the code has it).  Unless pmt is supplied as exactly zero while
    another parameter is unset, negating the supplied pval, fval and pmt
    (nrate, nper, due and pyr kept) negates every entry of the four
    sequences [amortize] returns, and a call that fails fails alike. *)
Theorem amortize_sign_symmetry (pval fval pmt nrate : option Q)
  (nper : option number) (due : Z) (pyr : Q) :
  (forall p, pmt = Some p -> p == 0 ->
     (is_none pval + is_none fval + is_none nper + is_none nrate)%nat
     = 0%nat) ->
  result_rel opposite4
    (amortize pval fval pmt nrate nper due pyr)
    (amortize (Qopp <$> pval) (Qopp <$> fval) (Qopp <$> pmt) nrate nper
       due pyr).
Proof.
  intros Hzero. pose proof (resolve_opp _ _ _ _ _ due pyr Hzero) as Hres.
  unfold amortize, amortize_rows.
  destruct (resolve pval fval pmt nrate nper due pyr) as [t|e],
    (resolve (Qopp <$> pval) (Qopp <$> fval) (Qopp <$> pmt) nrate nper
       due pyr) as [t'|e']; cbn [result_rel] in Hres; try done.
  cbn [mbind result_bind]. by apply schedule_opp.
Qed.
End SignSymmetry.

(** C6 fails as stated for a payment of exactly zero: it is replaced by
    0.0000001 whatever its sign, so for pval=100, pmt=0, nrate=10, nper=1
    (fval unset) and for the negated pval=-100, pmt=-0 the payments are the
    same [[0; 0.0000001]], not each other's negation. *)
Lemma zero_pmt_breaks_symmetry :
  exists principal interest balance principal' interest' balance',
    @amortize numpy_exact (Some 100) None (Some 0) (Some 10)
      (Some (Int 1)) 0 1
    = Ok (principal, interest, [0; 1 # 10000000], balance)
    /\ @amortize numpy_exact (Some (- (100))) None (Some (- 0)) (Some 10)
         (Some (Int 1)) 0 1
       = Ok (principal', interest', [0; 1 # 10000000], balance')
    /\ ~ opposite [0; 1 # 10000000] [0; 1 # 10000000].
Proof.
  do 6 eexists. split; [vm_compute; reflexivity|].
  split; [vm_compute; reflexivity|].
  intros Hopp. inversion Hopp as [|? ? ? ? _ Htl]; subst.
  inversion Htl as [|? ? ? ? E _]; subst. vm_compute in E. discriminate E.
Qed.

(** C6 at pval=100, pmt=-20, nrate=10, nper=5 and its negation. *)
Lemma amortize_sign_symmetry_witness :
  result_rel opposite4
    (@amortize numpy_exact (Some 100) None (Some (-20)) (Some 10)
       (Some (Int 5)) 0 1)
    (@amortize numpy_exact (Qopp <$> Some 100) (Qopp <$> None)
       (Qopp <$> Some (-20)) (Some 10) (Some (Int 5)) 0 1).
Proof.
  apply (@amortize_sign_symmetry numpy_exact numpy_exact_odd).
  intros p [= <-] E. vm_compute in E. discriminate E.
Defined.

(** ** Lists of different lengths *)

Lemma broadcast_Ok (ss : list shape) (s : shape) :
  broadcast ss = Ok s ->
  forall n, Some n ∈ ss -> n = 1%nat \/ s = Some n.
Proof.
  revert s. induction ss as [|a ss IH]; intros s Hs n Hn.
  - by apply elem_of_nil in Hn.
  - cbn [broadcast] in Hs.
    destruct (broadcast ss) as [t|e]; cbn [mbind result_bind] in Hs; [|done].
    apply elem_of_cons in Hn as [<-|Hn].
    + destruct t as [m|]; cbn [broadcast2] in Hs; [|by right; injection Hs].
      destruct (Nat.eqb_spec n m); [by right; injection Hs|].
      destruct (Nat.eqb_spec n 1); [by left|].
      destruct (Nat.eqb_spec m 1); [by right; injection Hs|done].
    + destruct (IH t eq_refl n Hn) as [?| ->]; [by left|].
      destruct a as [k|]; cbn [broadcast2] in Hs; [|by right; injection Hs].
      destruct (Nat.eqb_spec k n) as [->|?]; [by right; injection Hs|].
      destruct (Nat.eqb_spec k 1); [by right; injection Hs|].
      destruct (Nat.eqb_spec n 1); [by left|done].
Qed.

Lemma broadcast_Raise (ss : list shape) (e : exn) :
  broadcast ss = Raise e -> e = ValueError_broadcast.
Proof.
  induction ss as [|a ss IH]; cbn [broadcast]; [done|].
  destruct (broadcast ss) as [t|e']; cbn [mbind result_bind].
  - destruct a as [n|], t as [m|]; cbn [broadcast2]; try done.
    destruct (n =? m)%nat; [done|]. destruct (n =? 1)%nat; [done|].
    destruct (m =? 1)%nat; [done|]. by intros [= <-].
  - intros [= <-]. by apply IH.
Qed.

(** Two arrays whose lengths differ, neither of them 1, do not broadcast. *)
Lemma broadcast_incompatible (ss : list shape) (n m : nat) :
  Some n ∈ ss -> Some m ∈ ss -> n <> m -> n <> 1%nat -> m <> 1%nat ->
  broadcast ss = Raise ValueError_broadcast.
Proof.
  intros Hn Hm Hnm Hn1 Hm1. destruct (broadcast ss) as [s|e] eqn:E.
  - destruct (broadcast_Ok ss s E n Hn) as [?| ->]; [done|].
    destruct (broadcast_Ok ss (Some n) E m Hm) as [?|[= ?]]; done.
  - f_equal. by apply (broadcast_Raise ss).
Qed.

Lemma np_map5_incompatible {A} (d : A) f (a b c e g : value A) (n m : nat) :
  Some n ∈ shape_of <$> [a; b; c; e; g] ->
  Some m ∈ shape_of <$> [a; b; c; e; g] ->
  n <> m -> n <> 1%nat -> m <> 1%nat ->
  np_map5 d f a b c e g = Raise ValueError_broadcast.
Proof.
  intros Hn Hm Hnm Hn1 Hm1. unfold np_map5.
  by rewrite (broadcast_incompatible _ n m).
Qed.

Lemma shape_of_nonzero_pmt (v : value Q) :
  exists v', nonzero_pmt (Some v) = Some v' /\ shape_of v' = shape_of v.
Proof.
  destruct v as [p|l]; cbn [nonzero_pmt]; [|by eexists].
  destruct (Qeq_bool p 0); by eexists.
Qed.

(** C9 (as the code has it).  A call of [tvmm] with at most one parameter
    unset, in which two of the lists handed to numpy have different
    lengths, neither of them 1, fails with numpy's broadcasting error. *)
Theorem tvmm_incompatible_lengths `{Numpy}
  (pval fval pmt nrate nper : option (value Q)) (due : Z) (pyr : value Q)
  (la lb : list Q) :
  (is_none pval + is_none fval + is_none nper + is_none pmt
   + is_none nrate <= 1)%nat ->
  PyList la ∈ tvmm_operands pval fval pmt nrate nper pyr ->
  PyList lb ∈ tvmm_operands pval fval pmt nrate nper pyr ->
  length la <> length lb ->
  length la <> 1%nat ->
  length lb <> 1%nat ->
  tvmm pval fval pmt nrate nper due pyr = Raise ValueError_broadcast.
Proof.
  intros Hnone Ha Hb Hab Ha1 Hb1.
  apply (list_elem_of_fmap_2 shape_of) in Ha, Hb.
  cbn [shape_of] in Ha, Hb. unfold tvmm, tvmm_operands in *.
  destruct pval as [pv|], fval as [fv|], pmt as [p|], nrate as [nr|],
    nper as [n|]; cbn in Hnone; try lia.
  all: cbn [is_none Nat.add Nat.ltb Nat.leb Nat.eqb mbind result_bind need
            omap list_omap fmap list_fmap] in *.
  all: try (destruct (shape_of_nonzero_pmt p) as (p' & -> & Hp');
            cbn [mbind result_bind need]).
  all: apply (np_map5_incompatible _ _ _ _ _ _ _ (length la) (length lb));
    try done.
  all: cbn [fmap list_fmap]; rewrite ?Hp';
    rewrite !elem_of_cons, elem_of_nil in *; tauto.
Qed.

(** C9 fails as stated: a list of length 1 is broadcast.  With
    pval=[100] and fval=[0, 0] (nrate=10, nper=1, pmt unset) [tvmm] returns
    the two payments [-110, -110]; [vars2list], which would raise on these
    two lists, is not called. *)
Lemma unequal_lengths_broadcast :
  (exists x y,
      @tvmm numpy_exact (Some (PyList [100])) (Some (PyList [0; 0])) None
        (Some (Scalar 10)) (Some (Scalar 1)) 0 (Scalar 1)
      = Ok (PyList [x; y])
      /\ x == -110 /\ y == -110)
  /\ vars2list [PyList [100]; PyList [0; 0]] = Raise Exception_lengths.
Proof.
  split; [|reflexivity]. do 2 eexists.
  split; [vm_compute; reflexivity|]. split; reflexivity.
Qed.

(** C9 at pval=[100, 200] and fval=[0, 0, 0]. *)
Lemma tvmm_incompatible_lengths_witness :
  @tvmm numpy_exact (Some (PyList [100; 200])) (Some (PyList [0; 0; 0])) None
    (Some (Scalar 10)) (Some (Scalar 1)) 0 (Scalar 1)
  = Raise ValueError_broadcast.
Proof.
  apply (@tvmm_incompatible_lengths numpy_exact _ _ _ _ _ _ _
           [100; 200] [0; 0; 0]).
  - cbn. lia.
  - unfold tvmm_operands. cbn. repeat constructor.
  - unfold tvmm_operands. cbn. repeat constructor.
  - cbn. lia.
  - cbn. lia.
  - cbn. lia.
Defined.

(** ** Taxes on a cashflow *)

Lemma tabulate_nth {A} (l : list A) (d : A) :
  tabulate (length l) (fun j => nth j l d) = l.
Proof.
  apply list_eq. intros i. destruct (decide (i < length l)%nat) as [Hi|Hi].
  - rewrite lookup_tabulate by done.
    destruct (nth_lookup_or_length l i d) as [->|?]; [done|lia].
  - rewrite lookup_tabulate_ge by lia. symmetry. apply lookup_ge_None_2. lia.
Qed.

Lemma getitem_nth {A} (l : list A) (i : nat) (d : A) :
  (i < length l)%nat -> getitem l i = Ok (nth i l d).
Proof.
  intros Hi. unfold getitem.
  destruct (nth_lookup_or_length l i d) as [->|?]; [done|lia].
Qed.

Section Tax.
Variables (xcflo xtax_rate : TimeSeries).
Hypothesis Hlen : length (ts_data xcflo) = length (ts_data xtax_rate).

Lemma tax_step_state (k : nat) :
  (k < length (ts_data xcflo))%nat ->
  tax_step xtax_rate k (tax_state xcflo xtax_rate k)
  = Ok (tax_state xcflo xtax_rate (S k)).
Proof using Hlen.
  intros Hk. unfold tax_step, tax_state. cbn [ts_data with_data].
  rewrite !getitem_tabulate by done. cbn [mbind result_bind].
  rewrite Nat.ltb_irrefl.
  destruct (negb (Qle_bool (nth k (ts_data xcflo) 0) 0)) eqn:E.
  - cbn [mbind result_bind].
    rewrite (getitem_nth (ts_data xtax_rate) k 0) by lia.
    cbn [mbind result_bind]. rewrite setitem_tabulate by done.
    cbn [mbind result_bind]. unfold with_data. cbn [ts_start ts_pyr].
    do 2 f_equal. apply tabulate_ext. intros i Hi. unfold taxed.
    walk_entry; by rewrite ?E.
  - rewrite setitem_tabulate by done.
    cbn [mbind result_bind]. unfold with_data. cbn [ts_start ts_pyr].
    do 2 f_equal. apply tabulate_ext. intros i Hi. unfold taxed.
    walk_entry; by rewrite ?E.
Qed.

Lemma for_each_tax (m : nat) : forall k,
  (k + m <= length (ts_data xcflo))%nat ->
  for_each (tax_step xtax_rate) (seq k m) (tax_state xcflo xtax_rate k)
  = Ok (tax_state xcflo xtax_rate (k + m)).
Proof using Hlen.
  induction m as [|m IH]; intros k Hk; cbn [seq for_each].
  - by rewrite Nat.add_0_r.
  - rewrite tax_step_state by lia. cbn [mbind result_bind].
    rewrite IH by lia. do 2 f_equal. lia.
Qed.

Lemma tax_state_start : tax_state xcflo xtax_rate 0 = xcflo.
Proof.
  unfold tax_state. cbn [Nat.ltb Nat.leb]. rewrite tabulate_nth.
  by destruct xcflo.
Qed.
End Tax.

(** C10.  For two series over the same range of periods,
    [after_tax_cashflow] returns a series over that range whose entry at
    each time [t] is [cflo[t] * tax_rate[t] / 100] where [cflo[t] > 0] and 0
    where [cflo[t] <= 0]: the tax, not the cashflow net of it. *)
Theorem after_tax_cashflow_is_tax (cflo tax_rate : TimeSeries) :
  verify_eq_time_range cflo tax_rate = Ok tt ->
  exists res,
    after_tax_cashflow (Scalar cflo) (Scalar tax_rate) = Ok (Scalar res)
    /\ ts_start res = ts_start cflo
    /\ ts_pyr res = ts_pyr cflo
    /\ length (ts_data res) = length (ts_data cflo)
    /\ forall t, (t < length (ts_data cflo))%nat ->
         (0 < nth t (ts_data cflo) 0 ->
          nth t (ts_data res) 0
          == nth t (ts_data cflo) 0 * nth t (ts_data tax_rate) 0 / 100)
         /\ (nth t (ts_data cflo) 0 <= 0 -> nth t (ts_data res) 0 = 0).
Proof.
  intros Hrange.
  assert (length (ts_data cflo) = length (ts_data tax_rate)) as Hlen.
  { unfold verify_eq_time_range, ts_end in Hrange.
    destruct (Z.eqb_spec (ts_start cflo) (ts_start tax_rate)); [|done].
    destruct (Z.eqb_spec
                (ts_start cflo + Z.of_nat (length (ts_data cflo)) - 1)
                (ts_start tax_rate + Z.of_nat (length (ts_data tax_rate)) - 1));
      [lia|done]. }
  exists (tax_state cflo tax_rate (length (ts_data cflo))). split.
  - unfold after_tax_cashflow, vars2list, tax_series.
    cbn [fold_left for_each Nat.ltb Nat.leb mbind result_bind map replicate
         getitem lookup list_lookup zip zip_with].
    rewrite Hrange. cbn [mbind result_bind].
    rewrite <- (tax_state_start cflo tax_rate) at 2.
    rewrite (for_each_tax cflo tax_rate Hlen _ 0%nat) by lia.
    all: done.
  - unfold tax_state. cbn [with_data ts_start ts_pyr ts_data].
    rewrite length_tabulate. repeat split; try reflexivity.
    + intros Hpos. rewrite nth_tabulate by done.
      destruct (Nat.ltb_spec t (length (ts_data cflo))); [|lia].
      unfold taxed.
      destruct (Qle_bool (nth t (ts_data cflo) 0) 0) eqn:E.
      * apply Qle_bool_iff in E. lra.
      * cbn [negb]. by field.
    + intros Hneg. rewrite nth_tabulate by done.
      destruct (Nat.ltb_spec t (length (ts_data cflo))); [|lia].
      unfold taxed. apply Qle_bool_iff in Hneg. by rewrite Hneg.
Qed.

(** C10 at the cashflow [-100, 100, 100, 100, 100] taxed at 10 %. *)
Lemma after_tax_cashflow_is_tax_witness :
  let cflo := {| ts_start := 0; ts_pyr := 1;
                 ts_data := [-100; 100; 100; 100; 100] |} in
  let tax_rate := {| ts_start := 0; ts_pyr := 1;
                     ts_data := [10; 10; 10; 10; 10] |} in
  exists res,
    after_tax_cashflow (Scalar cflo) (Scalar tax_rate) = Ok (Scalar res)
    /\ ts_start res = ts_start cflo
    /\ ts_pyr res = ts_pyr cflo
    /\ length (ts_data res) = length (ts_data cflo)
    /\ forall t, (t < length (ts_data cflo))%nat ->
         (0 < nth t (ts_data cflo) 0 ->
          nth t (ts_data res) 0
          == nth t (ts_data cflo) 0 * nth t (ts_data tax_rate) 0 / 100)
         /\ (nth t (ts_data cflo) 0 <= 0 -> nth t (ts_data res) 0 = 0).
Proof.
  intros cflo tax_rate.
  apply (after_tax_cashflow_is_tax cflo tax_rate). reflexivity.
Defined.

(** ** Nominal, effective and periodic rates *)

Section RoundTrip.
Local Open Scope R_scope.
Variables (x : R) (p : nat).
Hypothesis Hx : -100 < x.
Hypothesis Hp : (0 < p)%nat.

Lemma pyr_ge_1 : 1 <= INR p.
Proof using Hp. change 1 with (INR 1). apply le_INR. lia. Qed.

(** The growth of one period is positive for a rate above -100 %. *)
Lemma periodic_growth_pos : 0 < 1 + x / INR p / 100.
Proof using Hx Hp.
  pose proof pyr_ge_1 as Hq.
  assert (-100 < x / INR p) as Hdiv; [|lra].
  apply Rmult_lt_reg_r with (INR p); [lra|].
  unfold Rdiv. rewrite Rmult_assoc, Rinv_l by lra. nra.
Qed.

Lemma effective_growth :
  1 + 100 * ((1 + x / INR p / 100) ^ p - 1) / 100
  = Rpower (1 + x / INR p / 100) (INR p).
Proof using Hx Hp.
  rewrite Rpower_pow by apply periodic_growth_pos. field.
Qed.

Lemma root_of_growth :
  Rpower (Rpower (1 + x / INR p / 100) (INR p)) (1 / INR p)
  = 1 + x / INR p / 100.
Proof using Hx Hp.
  pose proof pyr_ge_1 as Hq.
  rewrite Rpower_mult.
  replace (INR p * (1 / INR p)) with 1 by (field; lra).
  apply Rpower_1, periodic_growth_pos.
Qed.
End RoundTrip.

(** C7.  For a nominal rate [x > -100] and [p > 0] periods per year,
    [iconv(nrate=x, pyr=p)] returns [(effective, periodic)] with
    [periodic = x/p] and [effective = 100*((1 + periodic/100)^p - 1)], and
    [iconv(erate=effective, pyr=p)] returns [(x, periodic)]. *)
Theorem iconv_round_trip (x : R) (p : nat) :
  (-100 < x)%R ->
  (0 < p)%nat ->
  let periodic := (x / INR p)%R in
  let effective := (100 * ((1 + periodic / 100) ^ p - 1))%R in
  Rates.iconv (Some (Scalar x)) None None (Scalar (INR p))
  = Ok (Scalar effective, Scalar periodic)
  /\ Rates.iconv None (Some (Scalar effective)) None (Scalar (INR p))
     = Ok (Scalar x, Scalar periodic).
Proof.
  intros Hx Hp periodic effective.
  pose proof (pyr_ge_1 p Hp) as Hq.
  unfold Rates.iconv, Rates.np_zip, Rates.shaped, np_map2.
  cbn [is_none Nat.add Nat.eqb negb Rates.lengths_differ Rates.max_len
       Rates.as_array replicate broadcast broadcast2 shape_of length
       mbind result_bind np_build map seq item nth getitem lookup
       list_lookup].
  unfold Rates.np_power. split.
  - do 3 f_equal. subst effective periodic.
    by rewrite Rpower_pow by by apply periodic_growth_pos.
  - subst effective periodic.
    rewrite effective_growth, root_of_growth by done.
    do 3 f_equal; field; lra.
Qed.

(** C7 at the nominal rate 10 % compounded monthly. *)
Lemma iconv_round_trip_witness :
  let periodic := (10 / INR 12)%R in
  let effective := (100 * ((1 + periodic / 100) ^ 12 - 1))%R in
  Rates.iconv (Some (Scalar 10%R)) None None (Scalar (INR 12))
  = Ok (Scalar effective, Scalar periodic)
  /\ Rates.iconv None (Some (Scalar effective)) None (Scalar (INR 12))
     = Ok (Scalar 10%R, Scalar periodic).
Proof.
  apply (iconv_round_trip 10 12).
  - lra.
  - lia.
Defined.

(** ** The examples of the source's documentation *)

(** [tvmm(pval=5000, nrate=11.32/12, nper=48, fval=0)] is [-130.00...]. *)
Example tvmm_payment :
  exists x,
    @tvmm numpy_exact (Some (Scalar 5000)) (Some (Scalar 0)) None
      (Some (Scalar (1132 # 1200))) (Some (Scalar 48)) 0 (Scalar 1)
    = Ok (Scalar x)
    /\ -13001 # 100 < x < -13000 # 100.
Proof.
  eexists. split; [vm_compute; reflexivity|]. split; reflexivity.
Qed.

(** [amortize(pval=100, nrate=10, nper=5, fval=0)]: the payment is -26.38
    and the balances are 100.00, 83.62, 65.60, 45.78, 23.98, 0.00. *)
Example amortize_table :
  exists principal interest payment balance,
    @amortize numpy_exact (Some 100) (Some 0) None (Some 10)
      (Some (Int 5)) 0 1
    = Ok (principal, interest, payment, balance)
    /\ cents <$> principal = [0; -1638; -1802; -1982; -2180; -2398]%Z
    /\ cents <$> interest = [0; 1000; 836; 656; 458; 240]%Z
    /\ cents <$> payment = [0; -2638; -2638; -2638; -2638; -2638]%Z
    /\ cents <$> balance = [10000; 8362; 6560; 4578; 2398; 0]%Z.
Proof.
  do 4 eexists. split; [vm_compute; reflexivity|].
  repeat split; vm_compute; reflexivity.
Qed.

(** The same loan with payments at the start of the periods: the payment is
    -23.98, the last row has none, and the balances are 76.02, 59.64, 41.62,
    21.80, 0.00, 0.00. *)
Example amortize_table_due :
  exists principal interest payment balance,
    @amortize numpy_exact (Some 100) (Some 0) None (Some 10)
      (Some (Int 5)) 1 1
    = Ok (principal, interest, payment, balance)
    /\ cents <$> payment = [-2398; -2398; -2398; -2398; -2398; 0]%Z
    /\ cents <$> balance = [7602; 5964; 4162; 2180; 0; 0]%Z.
Proof.
  do 4 eexists. split; [vm_compute; reflexivity|].
  repeat split; vm_compute; reflexivity.
Qed.

(** [after_tax_cashflow] of the cashflow -100, 100, 100, 100, 100 at 10 %:
    0.00 at time 0 and 10.00 at the times 1 to 4. *)
Example after_tax_cashflow_series :
  exists res,
    after_tax_cashflow
      (Scalar {| ts_start := 0; ts_pyr := 1;
                 ts_data := [-100; 100; 100; 100; 100] |})
      (Scalar {| ts_start := 0; ts_pyr := 1;
                 ts_data := [10; 10; 10; 10; 10] |})
    = Ok (Scalar res)
    /\ cents <$> ts_data res = [0; 1000; 1000; 1000; 1000]%Z.
Proof.
  eexists. split; [vm_compute; reflexivity|]. vm_compute. reflexivity.
Qed.

(** ** Loops that rewrite a list in place *)

Lemma for_each_states {St} (body : nat -> St -> result St) (st : nat -> St)
  (len : nat) :
  (forall k, (k < len)%nat -> body k (st k) = Ok (st (S k))) ->
  forall m k, (k + m <= len)%nat ->
    for_each body (seq k m) (st k) = Ok (st (k + m)%nat).
Proof.
  intros Hstep. induction m as [|m IH]; intros k Hk; cbn [seq for_each].
  - by rewrite Nat.add_0_r.
  - rewrite Hstep by lia. cbn [mbind result_bind].
    rewrite IH by lia. do 2 f_equal. lia.
Qed.

(** [for i, _ in enumerate(l): l[i] = f(l[i])] maps [f] over [l]. *)
Lemma for_each_update (f : Q -> result Q) (g : Q -> Q) (l : list Q) :
  (forall k, (k < length l)%nat -> f (nth k l 0) = Ok (g (nth k l 0))) ->
  for_each (fun i fac => v ← getitem fac i; y ← f v; setitem fac i y)
    (seq 0 (length l)) l
  = Ok (g <$> l).
Proof.
  intros Hf.
  pose (st := fun k => tabulate (length l)
                         (fun j => if (j <? k)%nat then g (nth j l 0)
                                   else nth j l 0)).
  assert (forall k, (k < length l)%nat ->
            (fun i fac => v ← getitem fac i; y ← f v; setitem fac i y)
              k (st k) = Ok (st (S k))) as Hstep.
  { intros k Hk. unfold st.
    rewrite getitem_tabulate by done. cbn [mbind result_bind].
    rewrite Nat.ltb_irrefl, Hf by done. cbn [mbind result_bind].
    rewrite setitem_tabulate by done. f_equal.
    apply tabulate_ext. intros i Hi. walk_entry. }
  pose proof (for_each_states _ st (length l) Hstep (length l) 0%nat
                ltac:(lia)) as Hloop.
  cbn [Nat.add] in Hloop.
  assert (st 0%nat = l) as H0 by apply tabulate_nth.
  assert (st (length l) = g <$> l) as Hend.
  { apply list_eq. intros i. unfold st. rewrite list_lookup_fmap.
    destruct (nth_lookup_or_length l i 0) as [Hi|Hi].
    - rewrite Hi. apply lookup_lt_Some in Hi as Hlt.
      rewrite lookup_tabulate by done.
      by destruct (Nat.ltb_spec i (length l)); [|lia].
    - rewrite lookup_tabulate_ge by lia.
      by rewrite (lookup_ge_None_2 l i) by lia. }
  by rewrite H0, Hend in Hloop.
Qed.

(** ** Discount and compound factors *)

Lemma py_div_Ok (a b : Q) : ~ b == 0 -> py_div a b = Ok (a / b).
Proof.
  intros Hb. unfold py_div.
  destruct (Qeq_bool b 0) eqn:E; [by apply Qeq_bool_iff in E|done].
Qed.

Lemma Qdiv_nonzero (a b : Q) : ~ a == 0 -> ~ b == 0 -> ~ a / b == 0.
Proof.
  intros Ha Hb E. apply Ha.
  transitivity (a / b * b); [by field|]. rewrite E. ring.
Qed.

Lemma inject_Z_nonzero (z : Z) : z <> 0%Z -> ~ inject_Z z == 0.
Proof. intros Hz E. apply Hz. by apply (inject_Z_injective z 0). Qed.

Lemma py_index_lt (len : nat) (z : Z) (i : nat) :
  py_index len z = Ok i -> (i < len)%nat.
Proof.
  unfold py_index. destruct (Z.leb_spec 0 z).
  - destruct (Z.ltb_spec z (Z.of_nat len)); [|done]. intros [= <-]. lia.
  - destruct (Z.leb_spec (- Z.of_nat len) z); [|done]. intros [= <-]. lia.
Qed.

Lemma comprehension_prates (nrate : TimeSeries) :
  ts_pyr nrate <> 0%Z ->
  comprehension
    (fun x => y ← py_div x (inject_Z (ts_pyr nrate)); Ok (y / 100))
    (ts_data nrate)
  = Ok (prates nrate).
Proof.
  intros Hpyr. unfold prates.
  induction (ts_data nrate) as [|x l IH]; cbn [comprehension]; [done|].
  rewrite py_div_Ok by by apply inject_Z_nonzero.
  cbn [mbind result_bind]. by rewrite IH.
Qed.

Lemma for_each_app {X St} (body : X -> St -> result St) (xs ys : list X)
  (s : St) :
  for_each body (xs ++ ys) s = s' ← for_each body xs s; for_each body ys s'.
Proof.
  revert s. induction xs as [|x xs IH]; intros s; cbn [app for_each]; [done|].
  destruct (body x s) as [s'|e]; cbn [mbind result_bind]; [apply IH|done].
Qed.

Section Discount.
Variable prate : list Q.

Lemma discount_step_Ok (k : nat) :
  (k < length prate)%nat ->
  ~ 1 + nth k prate 0 == 0 ->
  discount_step k (disc_state prate k) = Ok (disc_state prate (S k)).
Proof.
  intros Hk Hrate. unfold disc_state, discount_step. destruct k as [|k].
  - rewrite getitem_tabulate by done. cbn [mbind result_bind].
    rewrite Nat.ltb_irrefl, py_div_Ok by done.
    cbn [mbind result_bind].
    rewrite setitem_tabulate by done. f_equal.
    apply tabulate_ext. intros i Hi. walk_entry.
  - rewrite !getitem_tabulate by lia. cbn [mbind result_bind].
    destruct (Nat.ltb_spec k (S k)); [|lia].
    rewrite Nat.ltb_irrefl, py_div_Ok by done.
    cbn [mbind result_bind]. rewrite setitem_tabulate by done. f_equal.
    apply tabulate_ext. intros i Hi. walk_entry.
Qed.

Lemma discount_step_Raise (k : nat) :
  (k < length prate)%nat ->
  1 + nth k prate 0 == 0 ->
  discount_step k (disc_state prate k) = Raise ZeroDivisionError.
Proof.
  intros Hk Hrate. apply Qeq_bool_iff in Hrate.
  unfold disc_state, discount_step, py_div. destruct k as [|k].
  - rewrite getitem_tabulate by done. cbn [mbind result_bind].
    by rewrite Nat.ltb_irrefl, Hrate.
  - rewrite !getitem_tabulate by lia. cbn [mbind result_bind].
    by rewrite Nat.ltb_irrefl, Hrate.
Qed.

Lemma disc_state_start : disc_state prate 0 = prate.
Proof. apply tabulate_nth. Qed.

Lemma disc_state_end :
  disc_state prate (length prate) = tabulate (length prate) (disc_at prate).
Proof.
  apply tabulate_ext. intros i Hi.
  by destruct (Nat.ltb_spec i (length prate)); [|lia].
Qed.

(** The loop up to a period [k], where the periods before have a rate. *)
Lemma discount_loop_upto (k : nat) :
  (k <= length prate)%nat ->
  (forall j, (j < k)%nat -> ~ 1 + nth j prate 0 == 0) ->
  for_each discount_step (seq 0 k) prate = Ok (disc_state prate k).
Proof.
  intros Hk Hrates.
  pose proof (for_each_states discount_step (disc_state prate) k) as Hloop.
  rewrite <- disc_state_start at 1.
  apply (Hloop (fun j Hj => discount_step_Ok j ltac:(lia) (Hrates j Hj))
               k 0%nat). lia.
Qed.

Hypothesis Hdefined : rates_defined prate.

Lemma disc_at_nonzero (k : nat) :
  (k < length prate)%nat -> ~ disc_at prate k == 0.
Proof using Hdefined.
  induction k as [|k IH]; intros Hk; cbn [disc_at].
  - apply Qdiv_nonzero; [done|by apply Hdefined].
  - apply Qdiv_nonzero; [apply IH; lia|by apply Hdefined].
Qed.

Lemma discount_loop :
  for_each discount_step (seq 0 (length prate)) prate
  = Ok (tabulate (length prate) (disc_at prate)).
Proof using Hdefined.
  rewrite discount_loop_upto, disc_state_end; [done..|].
  intros j Hj. by apply Hdefined.
Qed.
End Discount.

Section Factors.
Variables (nrate : TimeSeries) (base_date : Z) (b : nat).
Hypothesis Hpyr : ts_pyr nrate <> 0%Z.
Hypothesis Hdefined : rates_defined (prates nrate).
Hypothesis Hbase : py_index (length (ts_data nrate)) base_date = Ok b.

Lemma length_prates : length (prates nrate) = length (ts_data nrate).
Proof. unfold prates. by rewrite length_fmap. Qed.

Lemma to_discount_factor_closed :
  to_discount_factor nrate (OInt base_date)
  = Ok (tabulate (length (ts_data nrate)) (discount_at (prates nrate) b)).
Proof using Hpyr Hdefined Hbase.
  pose proof (py_index_lt _ _ _ Hbase) as Hb.
  unfold to_discount_factor. rewrite comprehension_prates by done.
  cbn [mbind result_bind]. rewrite discount_loop by done.
  cbn [mbind result_bind base_index].
  rewrite length_tabulate, length_prates, Hbase. cbn [mbind result_bind].
  rewrite getitem_tabulate by done. cbn [mbind result_bind].
  rewrite <- (length_tabulate (length (ts_data nrate))
                (disc_at (prates nrate))) at 1.
  rewrite (for_each_update _ (fun v => v / disc_at (prates nrate) b)).
  - f_equal. unfold tabulate. by rewrite <- list_fmap_compose.
  - intros k Hk. apply py_div_Ok, disc_at_nonzero; [done|].
    by rewrite length_prates.
Qed.

Lemma discount_at_nonzero (t : nat) :
  (t < length (ts_data nrate))%nat -> ~ discount_at (prates nrate) b t == 0.
Proof using Hdefined Hbase.
  pose proof (py_index_lt _ _ _ Hbase) as Hb. intros Ht.
  apply Qdiv_nonzero; apply disc_at_nonzero; rewrite ?length_prates; done.
Qed.

Lemma to_compound_factor_closed :
  to_compound_factor nrate (OInt base_date)
  = Ok (tabulate (length (ts_data nrate)) (compound_at (prates nrate) b)).
Proof using Hpyr Hdefined Hbase.
  unfold to_compound_factor. rewrite to_discount_factor_closed.
  cbn [mbind result_bind].
  rewrite (for_each_update _ (fun v => 1 / v)).
  - f_equal. unfold tabulate. by rewrite <- list_fmap_compose.
  - intros k Hk. rewrite length_tabulate in Hk.
    rewrite nth_tabulate by done. by apply py_div_Ok, discount_at_nonzero.
Qed.
End Factors.

Lemma nth_prates (nrate : TimeSeries) (t : nat) :
  (t < length (ts_data nrate))%nat ->
  nth t (prates nrate) 0
  = nth t (ts_data nrate) 0 / inject_Z (ts_pyr nrate) / 100.
Proof.
  intros Ht. apply nth_lookup_Some. unfold prates.
  rewrite list_lookup_fmap.
  by destruct (nth_lookup_or_length (ts_data nrate) t 0) as [->|?]; [|lia].
Qed.

(** A check of [rates_defined] that runs. *)
Lemma rates_defined_check (prate : list Q) :
  forallb (fun p => negb (Qeq_bool (1 + p) 0)) prate = true ->
  rates_defined prate.
Proof.
  intros Hall k Hk E. rewrite forallb_forall in Hall.
  specialize (Hall (nth k prate 0) (nth_In prate 0 Hk)).
  apply Qeq_bool_iff in E. by rewrite E in Hall.
Qed.

Lemma py_index_Raise (len : nat) (z : Z) :
  (z < - Z.of_nat len \/ Z.of_nat len <= z)%Z ->
  py_index len z = Raise IndexError.
Proof.
  intros Hz. unfold py_index. destruct (Z.leb_spec 0 z).
  - by destruct (Z.ltb_spec z (Z.of_nat len)); [lia|].
  - by destruct (Z.leb_spec (- Z.of_nat len) z); [lia|].
Qed.

Lemma discount_at_base (prate : list Q) (b : nat) :
  ~ disc_at prate b == 0 -> discount_at prate b b == 1.
Proof. intros Hb. unfold discount_at. by field. Qed.

Lemma discount_at_step (prate : list Q) (b t : nat) :
  ~ disc_at prate b == 0 -> ~ 1 + nth (S t) prate 0 == 0 ->
  discount_at prate b (S t) * (1 + nth (S t) prate 0) == discount_at prate b t.
Proof. intros Hb Ht. unfold discount_at. cbn [disc_at]. by field. Qed.

(** X1.  Where the series has a number of periods per year other than 0, no
    period with the rate -100 %, and [base_date] is an index of the series
    (counting from the end when negative), [to_discount_factor] returns one
    factor for each period; the factor of the base period is 1, and each
    factor times one plus the periodic rate [nrate[t+1]/pyr/100] of its
    period is the factor of the period before. *)
Theorem discount_factor_recurrence (nrate : TimeSeries) (base_date : Z)
  (b : nat) :
  ts_pyr nrate <> 0%Z ->
  rates_defined (prates nrate) ->
  py_index (length (ts_data nrate)) base_date = Ok b ->
  exists factor,
    to_discount_factor nrate (OInt base_date) = Ok factor
    /\ length factor = length (ts_data nrate)
    /\ nth b factor 0 == 1
    /\ forall t, (S t < length (ts_data nrate))%nat ->
         nth (S t) factor 0
         * (1 + nth (S t) (ts_data nrate) 0 / inject_Z (ts_pyr nrate) / 100)
         == nth t factor 0.
Proof.
  intros Hpyr Hdefined Hbase.
  pose proof (py_index_lt _ _ _ Hbase) as Hb.
  assert (~ disc_at (prates nrate) b == 0) as Hdisc.
  { apply disc_at_nonzero; [done|by rewrite length_prates]. }
  eexists. split; [by apply to_discount_factor_closed|].
  rewrite length_tabulate. split; [done|]. split.
  - rewrite nth_tabulate by done. by apply discount_at_base.
  - intros t Ht. rewrite !nth_tabulate by lia.
    rewrite <- nth_prates by done. apply discount_at_step; [done|].
    apply Hdefined. by rewrite length_prates.
Qed.

Lemma discount_factor_recurrence_witness :
  exists factor,
    to_discount_factor
      {| ts_start := 0; ts_pyr := 4; ts_data := replicate 12 4 |} (OInt 2)
    = Ok factor
    /\ length factor = 12%nat
    /\ nth 2 factor 0 == 1
    /\ forall t, (S t < 12)%nat ->
         nth (S t) factor 0
         * (1 + nth (S t) (replicate 12 4) 0 / inject_Z 4 / 100)
         == nth t factor 0.
Proof.
  apply (discount_factor_recurrence
           {| ts_start := 0; ts_pyr := 4; ts_data := replicate 12 4 |} 2 2).
  - done.
  - by apply rates_defined_check.
  - reflexivity.
Defined.

Lemma disc_at_constant (i : Q) (n k : nat) :
  (k < n)%nat -> ~ 1 + i == 0 ->
  disc_at (replicate n i) k == / (1 + i) ^ Z.of_nat (S k).
Proof.
  intros Hk Hi. induction k as [|k IH]; cbn [disc_at].
  - rewrite (nth_lookup_Some _ _ 0 i) by (apply lookup_replicate_2; lia).
    change (Z.of_nat 1) with 1%Z. cbn [Qpower Qpower_positive pow_pos].
    by field.
  - rewrite (nth_lookup_Some _ (S k) 0 i) by (apply lookup_replicate_2; lia).
    rewrite IH by lia.
    replace (Z.of_nat (S (S k))) with (Z.of_nat (S k) + 1)%Z by lia.
    rewrite Qpower_plus by done.
    change ((1 + i) ^ 1) with (1 + i). field. split; [done|].
    by apply Qpower_not_0.
Qed.

(** X2.  For a series of [n] periods at one rate [r], [to_discount_factor]
    returns the factors [(1 + i)^(t0 - t)], that is [1 / (1 + i)^(t - t0)],
    where [i = r/pyr/100] is the periodic rate and [t0] the base period. *)
Theorem discount_factor_constant_rate (start pyr : Z) (r : Q) (n : nat)
  (base_date : Z) (b : nat) :
  pyr <> 0%Z ->
  ~ 1 + r / inject_Z pyr / 100 == 0 ->
  py_index n base_date = Ok b ->
  exists factor,
    to_discount_factor
      {| ts_start := start; ts_pyr := pyr; ts_data := replicate n r |}
      (OInt base_date)
    = Ok factor
    /\ length factor = n
    /\ forall t, (t < n)%nat ->
         nth t factor 0
         == (1 + r / inject_Z pyr / 100) ^ (Z.of_nat b - Z.of_nat t).
Proof.
  intros Hpyr Hrate Hbase.
  pose proof (py_index_lt _ _ _ Hbase) as Hb.
  set (nrate := {| ts_start := start; ts_pyr := pyr;
                   ts_data := replicate n r |}).
  set (i := r / inject_Z pyr / 100) in *.
  assert (prates nrate = replicate n i) as Hprates.
  { unfold prates, nrate. cbn [ts_data ts_pyr]. by rewrite fmap_replicate. }
  assert (length (ts_data nrate) = n) as Hlen.
  { unfold nrate. cbn [ts_data]. by rewrite length_replicate. }
  assert (rates_defined (prates nrate)) as Hdefined.
  { intros k Hk. rewrite Hprates in *. rewrite length_replicate in Hk.
    by rewrite (nth_lookup_Some _ k 0 i) by by apply lookup_replicate_2. }
  eexists. split.
  { apply (to_discount_factor_closed nrate base_date b); [done..|].
    by rewrite Hlen. }
  rewrite length_tabulate, Hlen. split; [done|]. intros t Ht.
  rewrite nth_tabulate by done. unfold discount_at. rewrite Hprates.
  rewrite !disc_at_constant by done.
  replace (Z.of_nat b - Z.of_nat t)%Z
    with (Z.of_nat (S b) - Z.of_nat (S t))%Z by lia.
  rewrite Qpower_minus by done. field.
  split; by apply Qpower_not_0.
Qed.

Lemma discount_factor_constant_rate_witness :
  exists factor,
    to_discount_factor
      {| ts_start := 0; ts_pyr := 4; ts_data := replicate 12 4 |} (OInt 2)
    = Ok factor
    /\ length factor = 12%nat
    /\ forall t, (t < 12)%nat ->
         nth t factor 0
         == (1 + 4 / inject_Z 4 / 100) ^ (Z.of_nat 2 - Z.of_nat t).
Proof.
  apply (discount_factor_constant_rate 0 4 4 12 2 2).
  - done.
  - by vm_compute.
  - reflexivity.
Defined.

(** X3.  Under the same conditions [to_compound_factor] returns one factor
    for each period, each the inverse of the discount factor of its period:
    the factor of the base period is 1, and each factor is the factor of the
    period before times one plus the periodic rate of its own period. *)
Theorem compound_factor_inverts_discount (nrate : TimeSeries) (base_date : Z)
  (b : nat) :
  ts_pyr nrate <> 0%Z ->
  rates_defined (prates nrate) ->
  py_index (length (ts_data nrate)) base_date = Ok b ->
  exists discount compound,
    to_discount_factor nrate (OInt base_date) = Ok discount
    /\ to_compound_factor nrate (OInt base_date) = Ok compound
    /\ length compound = length (ts_data nrate)
    /\ nth b compound 0 == 1
    /\ (forall t, (t < length (ts_data nrate))%nat ->
          nth t compound 0 * nth t discount 0 == 1)
    /\ forall t, (S t < length (ts_data nrate))%nat ->
         nth (S t) compound 0
         == nth t compound 0
            * (1 + nth (S t) (ts_data nrate) 0 / inject_Z (ts_pyr nrate)
                   / 100).
Proof.
  intros Hpyr Hdefined Hbase.
  pose proof (py_index_lt _ _ _ Hbase) as Hb.
  assert (forall t, (t < length (ts_data nrate))%nat ->
            ~ disc_at (prates nrate) t == 0) as Hdisc.
  { intros t Ht. apply disc_at_nonzero; [done|by rewrite length_prates]. }
  do 2 eexists. split; [by apply to_discount_factor_closed|].
  split; [by apply to_compound_factor_closed|].
  rewrite length_tabulate. split; [done|]. split; [|split].
  - rewrite nth_tabulate by done. unfold compound_at.
    rewrite discount_at_base by auto. reflexivity.
  - intros t Ht. rewrite !nth_tabulate by done.
    unfold compound_at, discount_at. field. split; auto.
  - intros t Ht. rewrite !nth_tabulate by lia.
    rewrite <- nth_prates by done. unfold compound_at, discount_at.
    cbn [disc_at].
    assert (~ 1 + nth (S t) (prates nrate) 0 == 0) as Hrate.
    { apply Hdefined. by rewrite length_prates. }
    field. repeat split; auto. apply Hdisc. lia.
Qed.

Lemma compound_factor_inverts_discount_witness :
  exists discount compound,
    to_discount_factor
      {| ts_start := 0; ts_pyr := 4; ts_data := replicate 10 4 |} (OInt 2)
    = Ok discount
    /\ to_compound_factor
         {| ts_start := 0; ts_pyr := 4; ts_data := replicate 10 4 |} (OInt 2)
       = Ok compound
    /\ length compound = 10%nat
    /\ nth 2 compound 0 == 1
    /\ (forall t, (t < 10)%nat -> nth t compound 0 * nth t discount 0 == 1)
    /\ forall t, (S t < 10)%nat ->
         nth (S t) compound 0
         == nth t compound 0
            * (1 + nth (S t) (replicate 10 4) 0 / inject_Z 4 / 100).
Proof.
  apply (compound_factor_inverts_discount
           {| ts_start := 0; ts_pyr := 4; ts_data := replicate 10 4 |} 2 2).
  - done.
  - by apply rates_defined_check.
  - reflexivity.
Defined.

Lemma disc_at_first_rate (x y : Q) (l : list Q) (k : nat) :
  ~ 1 + x == 0 -> ~ 1 + y == 0 ->
  disc_at (x :: l) k == disc_at (y :: l) k * ((1 + y) / (1 + x)).
Proof.
  intros Hx Hy. induction k as [|k IH]; cbn [disc_at nth].
  - by field.
  - rewrite IH. cbn [nth]. unfold Qdiv. ring.
Qed.

(** X4.  The rate of the first period has no part in the discount factors:
    two series that differ in their first rate only have the same
    factors. *)
Theorem discount_factor_ignores_first_rate (start pyr : Z) (x y : Q)
  (l : list Q) (base_date : Z) (b : nat) :
  pyr <> 0%Z ->
  rates_defined
    (prates {| ts_start := start; ts_pyr := pyr; ts_data := x :: l |}) ->
  rates_defined
    (prates {| ts_start := start; ts_pyr := pyr; ts_data := y :: l |}) ->
  py_index (S (length l)) base_date = Ok b ->
  exists factor factor',
    to_discount_factor
      {| ts_start := start; ts_pyr := pyr; ts_data := x :: l |}
      (OInt base_date) = Ok factor
    /\ to_discount_factor
         {| ts_start := start; ts_pyr := pyr; ts_data := y :: l |}
         (OInt base_date) = Ok factor'
    /\ length factor = length factor'
    /\ forall t, nth t factor 0 == nth t factor' 0.
Proof.
  intros Hpyr Hx Hy Hbase.
  pose proof (py_index_lt _ _ _ Hbase) as Hb.
  do 2 eexists. split; [by apply to_discount_factor_closed|].
  split; [by apply to_discount_factor_closed|].
  cbn [ts_data length]. rewrite !length_tabulate. split; [done|].
  intros t. destruct (decide (t < S (length l))%nat) as [Ht|Ht].
  - rewrite !nth_tabulate by done. unfold discount_at.
    set (p := x / inject_Z pyr / 100). set (q := y / inject_Z pyr / 100).
    set (l' := (fun v => v / inject_Z pyr / 100) <$> l).
    change (prates {| ts_start := start; ts_pyr := pyr; ts_data := x :: l |})
      with (p :: l') in *.
    change (prates {| ts_start := start; ts_pyr := pyr; ts_data := y :: l |})
      with (q :: l') in *.
    assert (length (q :: l') = S (length l)) as Hlen.
    { unfold l'. cbn [length]. by rewrite length_fmap. }
    assert (~ 1 + p == 0) as Hp by (apply (Hx 0%nat); cbn [length]; lia).
    assert (~ 1 + q == 0) as Hq by (apply (Hy 0%nat); cbn [length]; lia).
    assert (~ disc_at (q :: l') b == 0) as Hdisc.
    { apply (disc_at_nonzero _ Hy). by rewrite Hlen. }
    rewrite !(disc_at_first_rate p q) by done. by field.
  - rewrite !nth_overflow by (rewrite length_tabulate; lia). reflexivity.
Qed.

Lemma discount_factor_ignores_first_rate_witness :
  exists factor factor',
    to_discount_factor
      {| ts_start := 0; ts_pyr := 1; ts_data := [10; 10; 20; 20; 20] |}
      (OInt 0) = Ok factor
    /\ to_discount_factor
         {| ts_start := 0; ts_pyr := 1; ts_data := [50; 10; 20; 20; 20] |}
         (OInt 0) = Ok factor'
    /\ length factor = length factor'
    /\ forall t, nth t factor 0 == nth t factor' 0.
Proof.
  apply (discount_factor_ignores_first_rate 0 1 10 50 [10; 20; 20; 20] 0 0).
  - done.
  - by apply rates_defined_check.
  - by apply rates_defined_check.
  - reflexivity.
Defined.

Lemma to_discount_factor_base_Raise (nrate : TimeSeries) (base_date : pyobj)
  (e : exn) :
  ts_pyr nrate <> 0%Z ->
  rates_defined (prates nrate) ->
  base_index (length (ts_data nrate)) base_date = Raise e ->
  to_discount_factor nrate base_date = Raise e.
Proof.
  intros Hpyr Hdefined E.
  unfold to_discount_factor. rewrite comprehension_prates by done.
  cbn [mbind result_bind]. rewrite discount_loop by done.
  cbn [mbind result_bind].
  by rewrite length_tabulate, length_prates, E.
Qed.

(** X5.  A [base_date] that is no index of the series stops
    [to_discount_factor]: an [int] outside [-len .. len - 1] with an
    [IndexError], a [float] or [None] with a [TypeError]. *)
Theorem discount_factor_bad_base_date (nrate : TimeSeries) :
  ts_pyr nrate <> 0%Z ->
  rates_defined (prates nrate) ->
  (forall z : Z,
     (z < - Z.of_nat (length (ts_data nrate))
      \/ Z.of_nat (length (ts_data nrate)) <= z)%Z ->
     to_discount_factor nrate (OInt z) = Raise IndexError)
  /\ (forall q : Q, to_discount_factor nrate (OFloat q) = Raise TypeError)
  /\ to_discount_factor nrate ONone = Raise TypeError.
Proof.
  intros Hpyr Hdefined. split; [|split].
  - intros z Hz. apply to_discount_factor_base_Raise; [done..|].
    by apply py_index_Raise.
  - intros q. by apply to_discount_factor_base_Raise.
  - by apply to_discount_factor_base_Raise.
Qed.

Lemma discount_factor_bad_base_date_witness :
  (forall z : Z,
     (z < - Z.of_nat 12 \/ Z.of_nat 12 <= z)%Z ->
     to_discount_factor
       {| ts_start := 0; ts_pyr := 4; ts_data := replicate 12 4 |} (OInt z)
     = Raise IndexError)
  /\ (forall q : Q,
        to_discount_factor
          {| ts_start := 0; ts_pyr := 4; ts_data := replicate 12 4 |}
          (OFloat q)
        = Raise TypeError)
  /\ to_discount_factor
       {| ts_start := 0; ts_pyr := 4; ts_data := replicate 12 4 |} ONone
     = Raise TypeError.
Proof.
  apply (discount_factor_bad_base_date
           {| ts_start := 0; ts_pyr := 4; ts_data := replicate 12 4 |}).
  - done.
  - by apply rates_defined_check.
Defined.

Lemma first_undefined (prate : list Q) (k : nat) :
  1 + nth k prate 0 == 0 ->
  exists j, (j <= k)%nat /\ 1 + nth j prate 0 == 0
            /\ forall i, (i < j)%nat -> ~ 1 + nth i prate 0 == 0.
Proof.
  intros Hk.
  assert (forall n,
            (forall i, (i < n)%nat -> ~ 1 + nth i prate 0 == 0)
            \/ exists j, (j < n)%nat /\ 1 + nth j prate 0 == 0
                 /\ forall i, (i < j)%nat -> ~ 1 + nth i prate 0 == 0)
    as Hsearch.
  { induction n as [|n [IH|(j & Hj & Ej & Hfirst)]].
    - left. intros i Hi. lia.
    - destruct (Qeq_dec (1 + nth n prate 0) 0) as [E|E].
      + right. exists n. split; [lia|done].
      + left. intros i Hi. destruct (decide (i = n)) as [->|]; [done|].
        apply IH. lia.
    - right. exists j. split; [lia|done]. }
  destruct (Hsearch (S k)) as [Hnone|(j & Hj & Ej & Hfirst)].
  - destruct (Hnone k); [lia|done].
  - exists j. split; [lia|done].
Qed.

Lemma discount_loop_Raise (prate : list Q) (k : nat) :
  (k < length prate)%nat ->
  1 + nth k prate 0 == 0 ->
  for_each discount_step (seq 0 (length prate)) prate
  = Raise ZeroDivisionError.
Proof.
  intros Hk Ek.
  destruct (first_undefined prate k Ek) as (j & Hj & Ej & Hfirst).
  replace (length prate) with (j + S (length prate - S j))%nat at 1 by lia.
  rewrite seq_app, for_each_app, discount_loop_upto by (done || lia).
  cbn [mbind result_bind Nat.add seq for_each].
  by rewrite discount_step_Raise by (done || lia).
Qed.

(** X6.  A rate of -100 % per period in any period of the series stops
    [to_discount_factor] and [to_compound_factor] with a
    [ZeroDivisionError], whatever the base date. *)
Theorem discount_factor_total_loss (nrate : TimeSeries) (k : nat)
  (base_date : pyobj) :
  ts_pyr nrate <> 0%Z ->
  (k < length (ts_data nrate))%nat ->
  1 + nth k (ts_data nrate) 0 / inject_Z (ts_pyr nrate) / 100 == 0 ->
  to_discount_factor nrate base_date = Raise ZeroDivisionError
  /\ to_compound_factor nrate base_date = Raise ZeroDivisionError.
Proof.
  intros Hpyr Hk Ek. rewrite <- nth_prates in Ek by done.
  assert (to_discount_factor nrate base_date = Raise ZeroDivisionError)
    as Hrun.
  { unfold to_discount_factor. rewrite comprehension_prates by done.
    cbn [mbind result_bind].
    by rewrite (discount_loop_Raise _ k) by (by rewrite ?length_prates). }
  split; [done|]. unfold to_compound_factor. by rewrite Hrun.
Qed.

Lemma discount_factor_total_loss_witness :
  to_discount_factor
    {| ts_start := 0; ts_pyr := 1; ts_data := [10; -100; 20] |} (OInt 0)
  = Raise ZeroDivisionError
  /\ to_compound_factor
       {| ts_start := 0; ts_pyr := 1; ts_data := [10; -100; 20] |} (OInt 0)
     = Raise ZeroDivisionError.
Proof.
  apply (discount_factor_total_loss
           {| ts_start := 0; ts_pyr := 1; ts_data := [10; -100; 20] |} 1).
  - done.
  - cbn. lia.
  - reflexivity.
Defined.

(** ** Constant and current money, and other currencies *)

Lemma verify_eq_time_range_length (x y : TimeSeries) :
  verify_eq_time_range x y = Ok tt ->
  length (ts_data x) = length (ts_data y).
Proof.
  unfold verify_eq_time_range, ts_end. intros Hrange.
  destruct (Z.eqb_spec (ts_start x) (ts_start y)); [|done].
  destruct (Z.eqb_spec (ts_start x + Z.of_nat (length (ts_data x)) - 1)
              (ts_start y + Z.of_nat (length (ts_data y)) - 1));
    [lia|done].
Qed.

Lemma verify_eq_time_range_with_data (x y : TimeSeries) (data : list Q) :
  length data = length (ts_data x) ->
  verify_eq_time_range (with_data x data) y = verify_eq_time_range x y.
Proof.
  intros Hlen. unfold verify_eq_time_range, ts_end, with_data.
  cbn [ts_start ts_pyr ts_data]. by rewrite Hlen.
Qed.

Lemma with_data_id (x : TimeSeries) : with_data x (ts_data x) = x.
Proof. by destruct x. Qed.

(** [for time, _ in enumerate(result): result[time] = g(time, result[time])]
    on a copy of the series [x]. *)
Lemma for_each_series (step : nat -> TimeSeries -> result TimeSeries)
  (g : nat -> Q -> Q) (x : TimeSeries) :
  (forall k f, (k < length (ts_data x))%nat ->
     step k (with_data x (tabulate (length (ts_data x)) f))
     = Ok (with_data x
             (tabulate (length (ts_data x))
                (fun j => if (j =? k)%nat then g k (f k) else f j)))) ->
  for_each step (seq 0 (length (ts_data x))) x
  = Ok (with_data x
          (tabulate (length (ts_data x))
             (fun t => g t (nth t (ts_data x) 0)))).
Proof.
  intros Hstep. set (len := length (ts_data x)) in *.
  set (state := fun k => with_data x
                  (tabulate len
                     (fun j => if (j <? k)%nat then g j (nth j (ts_data x) 0)
                               else nth j (ts_data x) 0))).
  assert (forall k, (k < len)%nat -> step k (state k) = Ok (state (S k)))
    as Hstate.
  { intros k Hk. unfold state. rewrite Hstep by done. do 2 f_equal.
    apply tabulate_ext. intros i Hi. rewrite Nat.ltb_irrefl. walk_entry. }
  assert (state 0%nat = x) as Hstart.
  { unfold state, len. cbn [Nat.ltb Nat.leb].
    by rewrite tabulate_nth, with_data_id. }
  assert (state len
          = with_data x (tabulate len (fun t => g t (nth t (ts_data x) 0))))
    as Hend.
  { unfold state. f_equal. apply tabulate_ext. intros i Hi.
    by destruct (Nat.ltb_spec i len); [|lia]. }
  rewrite <- Hstart at 1. rewrite <- Hend.
  apply (for_each_states step state len Hstate len 0%nat). lia.
Qed.

Lemma scale_loop (factor : list Q) (x : TimeSeries) :
  length factor = length (ts_data x) ->
  for_each (scale_step factor) (seq 0 (length (ts_data x))) x
  = Ok (with_data x
          (tabulate (length (ts_data x))
             (fun t => nth t (ts_data x) 0 * nth t factor 0))).
Proof.
  intros Hlen.
  apply (for_each_series _ (fun t v => v * nth t factor 0)).
  intros k f Hk. unfold scale_step. cbn [with_data ts_data].
  rewrite getitem_tabulate by done. cbn [mbind result_bind].
  rewrite (getitem_nth factor k 0) by lia. cbn [mbind result_bind].
  by rewrite setitem_tabulate by done.
Qed.

Lemma exchange_loop (e : pyobj) (q : Q) (x : TimeSeries) :
  as_number e = Ok q ->
  for_each (exchange_step e) (seq 0 (length (ts_data x))) x
  = Ok (with_data x
          (tabulate (length (ts_data x)) (fun t => nth t (ts_data x) 0 * q))).
Proof.
  intros He.
  apply (for_each_series _ (fun t v => v * q)).
  intros k f Hk. unfold exchange_step. cbn [with_data ts_data].
  rewrite getitem_tabulate by done. cbn [mbind result_bind].
  rewrite He. cbn [mbind result_bind].
  by rewrite setitem_tabulate by done.
Qed.

Lemma devaluation_loop (e : pyobj) (q : Q) (factor : list Q)
  (x : TimeSeries) :
  as_number e = Ok q ->
  length factor = length (ts_data x) ->
  for_each (devaluation_step e factor) (seq 0 (length (ts_data x))) x
  = Ok (with_data x
          (tabulate (length (ts_data x))
             (fun t => nth t (ts_data x) 0 * (q * nth t factor 0)))).
Proof.
  intros He Hlen.
  apply (for_each_series _ (fun t v => v * (q * nth t factor 0))).
  intros k f Hk. unfold devaluation_step. cbn [with_data ts_data].
  rewrite getitem_tabulate by done. cbn [mbind result_bind].
  rewrite He. cbn [mbind result_bind].
  rewrite (getitem_nth factor k 0) by lia. cbn [mbind result_bind].
  by rewrite setitem_tabulate by done.
Qed.

(** [const2curr] and [curr2const] on one cashflow and one inflation
    series. *)
Lemma convert_single (to_factor : TimeSeries -> pyobj -> result (list Q))
  (cflo inflation : TimeSeries) (base_date : pyobj) (factor : list Q) :
  verify_eq_time_range cflo inflation = Ok tt ->
  to_factor inflation base_date = Ok factor ->
  length factor = length (ts_data cflo) ->
  convert to_factor (Scalar (OSeries cflo)) (Scalar (OSeries inflation))
    (Scalar base_date)
  = Ok (Scalar (with_data cflo
                  (tabulate (length (ts_data cflo))
                     (fun t => nth t (ts_data cflo) 0 * nth t factor 0)))).
Proof.
  intros Hrange Hfactor Hlen. unfold convert, vars2list, convert_series.
  cbn [fold_left for_each Nat.ltb Nat.leb mbind result_bind map replicate
       getitem lookup list_lookup zip zip_with as_series].
  rewrite Hrange. cbn [mbind result_bind]. rewrite Hfactor.
  cbn [mbind result_bind]. by rewrite scale_loop by done.
Qed.

Lemma convert_single_Raise
  (to_factor : TimeSeries -> pyobj -> result (list Q))
  (cflo inflation : TimeSeries) (base_date : pyobj) (e : exn) :
  verify_eq_time_range cflo inflation = Ok tt ->
  to_factor inflation base_date = Raise e ->
  convert to_factor (Scalar (OSeries cflo)) (Scalar (OSeries inflation))
    (Scalar base_date)
  = Raise e.
Proof.
  intros Hrange Hfactor. unfold convert, vars2list, convert_series.
  cbn [fold_left for_each Nat.ltb Nat.leb mbind result_bind map replicate
       getitem lookup list_lookup zip zip_with as_series].
  rewrite Hrange. cbn [mbind result_bind]. by rewrite Hfactor.
Qed.

(** X7.  For a cashflow and an inflation series over the same range of
    periods, [const2curr] returns a series over that range whose value at
    each time is the value of the cashflow times the compound factor of the
    inflation at that time; the value at the base date is unchanged. *)
Theorem const2curr_compounds (cflo inflation : TimeSeries) (base_date : Z)
  (b : nat) :
  verify_eq_time_range cflo inflation = Ok tt ->
  ts_pyr inflation <> 0%Z ->
  rates_defined (prates inflation) ->
  py_index (length (ts_data inflation)) base_date = Ok b ->
  exists factor res,
    to_compound_factor inflation (OInt base_date) = Ok factor
    /\ const2curr (Scalar (OSeries cflo)) (Scalar (OSeries inflation))
         (Scalar (OInt base_date)) = Ok (Scalar res)
    /\ ts_start res = ts_start cflo
    /\ ts_pyr res = ts_pyr cflo
    /\ length (ts_data res) = length (ts_data cflo)
    /\ (forall t, (t < length (ts_data cflo))%nat ->
          nth t (ts_data res) 0 = nth t (ts_data cflo) 0 * nth t factor 0)
    /\ nth b (ts_data res) 0 == nth b (ts_data cflo) 0.
Proof.
  intros Hrange Hpyr Hdefined Hbase.
  pose proof (verify_eq_time_range_length _ _ Hrange) as Hlen.
  pose proof (py_index_lt _ _ _ Hbase) as Hb.
  do 2 eexists. split; [by apply to_compound_factor_closed|]. split.
  { apply convert_single; [done|by apply to_compound_factor_closed|].
    by rewrite length_tabulate. }
  cbn [with_data ts_start ts_pyr ts_data]. rewrite length_tabulate.
  repeat split.
  - intros t Ht. by rewrite nth_tabulate by done.
  - rewrite !nth_tabulate by lia. unfold compound_at.
    rewrite discount_at_base.
    + field.
    + apply disc_at_nonzero; [done|by rewrite length_prates].
Qed.

Lemma const2curr_compounds_witness :
  let cflo := {| ts_start := 0; ts_pyr := 1;
                 ts_data := [100; 100; 100; 100; 100] |} in
  let inflation := {| ts_start := 0; ts_pyr := 1;
                      ts_data := [10; 10; 20; 20; 20] |} in
  exists factor res,
    to_compound_factor inflation (OInt 0) = Ok factor
    /\ const2curr (Scalar (OSeries cflo)) (Scalar (OSeries inflation))
         (Scalar (OInt 0)) = Ok (Scalar res)
    /\ ts_start res = ts_start cflo
    /\ ts_pyr res = ts_pyr cflo
    /\ length (ts_data res) = length (ts_data cflo)
    /\ (forall t, (t < length (ts_data cflo))%nat ->
          nth t (ts_data res) 0 = nth t (ts_data cflo) 0 * nth t factor 0)
    /\ nth 0 (ts_data res) 0 == nth 0 (ts_data cflo) 0.
Proof.
  intros cflo inflation.
  apply (const2curr_compounds cflo inflation 0 0).
  - reflexivity.
  - done.
  - by apply rates_defined_check.
  - reflexivity.
Defined.

(** X8.  For a cashflow and an inflation series over the same range of
    periods, [curr2const] returns a series over that range whose value at
    each time is the value of the cashflow times the discount factor of the
    inflation at that time; the value at the base date is unchanged. *)
Theorem curr2const_discounts (cflo inflation : TimeSeries) (base_date : Z)
  (b : nat) :
  verify_eq_time_range cflo inflation = Ok tt ->
  ts_pyr inflation <> 0%Z ->
  rates_defined (prates inflation) ->
  py_index (length (ts_data inflation)) base_date = Ok b ->
  exists factor res,
    to_discount_factor inflation (OInt base_date) = Ok factor
    /\ curr2const (Scalar (OSeries cflo)) (Scalar (OSeries inflation))
         (Scalar (OInt base_date)) = Ok (Scalar res)
    /\ ts_start res = ts_start cflo
    /\ ts_pyr res = ts_pyr cflo
    /\ length (ts_data res) = length (ts_data cflo)
    /\ (forall t, (t < length (ts_data cflo))%nat ->
          nth t (ts_data res) 0 = nth t (ts_data cflo) 0 * nth t factor 0)
    /\ nth b (ts_data res) 0 == nth b (ts_data cflo) 0.
Proof.
  intros Hrange Hpyr Hdefined Hbase.
  pose proof (verify_eq_time_range_length _ _ Hrange) as Hlen.
  pose proof (py_index_lt _ _ _ Hbase) as Hb.
  do 2 eexists. split; [by apply to_discount_factor_closed|]. split.
  { apply convert_single; [done|by apply to_discount_factor_closed|].
    by rewrite length_tabulate. }
  cbn [with_data ts_start ts_pyr ts_data]. rewrite length_tabulate.
  repeat split.
  - intros t Ht. by rewrite nth_tabulate by done.
  - rewrite !nth_tabulate by lia.
    rewrite discount_at_base.
    + ring.
    + apply disc_at_nonzero; [done|by rewrite length_prates].
Qed.

Lemma curr2const_discounts_witness :
  let cflo := {| ts_start := 0; ts_pyr := 1;
                 ts_data := [100; 100; 100; 100; 100] |} in
  let inflation := {| ts_start := 0; ts_pyr := 1;
                      ts_data := [10; 10; 20; 20; 20] |} in
  exists factor res,
    to_discount_factor inflation (OInt 0) = Ok factor
    /\ curr2const (Scalar (OSeries cflo)) (Scalar (OSeries inflation))
         (Scalar (OInt 0)) = Ok (Scalar res)
    /\ ts_start res = ts_start cflo
    /\ ts_pyr res = ts_pyr cflo
    /\ length (ts_data res) = length (ts_data cflo)
    /\ (forall t, (t < length (ts_data cflo))%nat ->
          nth t (ts_data res) 0 = nth t (ts_data cflo) 0 * nth t factor 0)
    /\ nth 0 (ts_data res) 0 == nth 0 (ts_data cflo) 0.
Proof.
  intros cflo inflation.
  apply (curr2const_discounts cflo inflation 0 0).
  - reflexivity.
  - done.
  - by apply rates_defined_check.
  - reflexivity.
Defined.

Section Conversions.
Variables (cflo inflation : TimeSeries) (base_date : Z) (b : nat).
Hypothesis Hrange : verify_eq_time_range cflo inflation = Ok tt.
Hypothesis Hpyr : ts_pyr inflation <> 0%Z.
Hypothesis Hdefined : rates_defined (prates inflation).
Hypothesis Hbase : py_index (length (ts_data inflation)) base_date = Ok b.

Lemma const2curr_closed :
  const2curr (Scalar (OSeries cflo)) (Scalar (OSeries inflation))
    (Scalar (OInt base_date))
  = Ok (Scalar (with_data cflo
                  (tabulate (length (ts_data cflo))
                     (fun t => nth t (ts_data cflo) 0
                               * compound_at (prates inflation) b t)))).
Proof using Hrange Hpyr Hdefined Hbase.
  pose proof (verify_eq_time_range_length _ _ Hrange) as Hlen.
  unfold const2curr.
  rewrite (convert_single _ _ _ _ _ Hrange
             (to_compound_factor_closed _ _ _ Hpyr Hdefined Hbase))
    by by rewrite length_tabulate.
  do 3 f_equal. apply tabulate_ext. intros t Ht.
  rewrite nth_tabulate; [done|lia].
Qed.

Lemma curr2const_closed :
  curr2const (Scalar (OSeries cflo)) (Scalar (OSeries inflation))
    (Scalar (OInt base_date))
  = Ok (Scalar (with_data cflo
                  (tabulate (length (ts_data cflo))
                     (fun t => nth t (ts_data cflo) 0
                               * discount_at (prates inflation) b t)))).
Proof using Hrange Hpyr Hdefined Hbase.
  pose proof (verify_eq_time_range_length _ _ Hrange) as Hlen.
  unfold curr2const.
  rewrite (convert_single _ _ _ _ _ Hrange
             (to_discount_factor_closed _ _ _ Hpyr Hdefined Hbase))
    by by rewrite length_tabulate.
  do 3 f_equal. apply tabulate_ext. intros t Ht.
  rewrite nth_tabulate; [done|lia].
Qed.
End Conversions.

(** X9.  [curr2const] undoes [const2curr] and [const2curr] undoes
    [curr2const], for the same inflation and base date: the series that
    comes back covers the range of the cashflow and has its values. *)
Theorem const2curr_curr2const_round_trip (cflo inflation : TimeSeries)
  (base_date : Z) (b : nat) :
  verify_eq_time_range cflo inflation = Ok tt ->
  ts_pyr inflation <> 0%Z ->
  rates_defined (prates inflation) ->
  py_index (length (ts_data inflation)) base_date = Ok b ->
  exists current constant back back',
    const2curr (Scalar (OSeries cflo)) (Scalar (OSeries inflation))
      (Scalar (OInt base_date)) = Ok (Scalar current)
    /\ curr2const (Scalar (OSeries current)) (Scalar (OSeries inflation))
         (Scalar (OInt base_date)) = Ok (Scalar back)
    /\ curr2const (Scalar (OSeries cflo)) (Scalar (OSeries inflation))
         (Scalar (OInt base_date)) = Ok (Scalar constant)
    /\ const2curr (Scalar (OSeries constant)) (Scalar (OSeries inflation))
         (Scalar (OInt base_date)) = Ok (Scalar back')
    /\ ts_start back = ts_start cflo /\ ts_start back' = ts_start cflo
    /\ ts_pyr back = ts_pyr cflo /\ ts_pyr back' = ts_pyr cflo
    /\ length (ts_data back) = length (ts_data cflo)
    /\ length (ts_data back') = length (ts_data cflo)
    /\ forall t,
         nth t (ts_data back) 0 == nth t (ts_data cflo) 0
         /\ nth t (ts_data back') 0 == nth t (ts_data cflo) 0.
Proof.
  intros Hrange Hpyr Hdefined Hbase.
  pose proof (verify_eq_time_range_length _ _ Hrange) as Hlen.
  pose proof (py_index_lt _ _ _ Hbase) as Hb.
  do 4 eexists.
  split; [by apply const2curr_closed|].
  split.
  { apply curr2const_closed; [|done..].
    by rewrite verify_eq_time_range_with_data by apply length_tabulate. }
  split; [by apply curr2const_closed|].
  split.
  { apply const2curr_closed; [|done..].
    by rewrite verify_eq_time_range_with_data by apply length_tabulate. }
  cbn [with_data ts_start ts_pyr ts_data]. rewrite !length_tabulate.
  do 6 (split; [done|]).
  intros t. destruct (decide (t < length (ts_data cflo))%nat) as [Ht|Ht].
  - rewrite !nth_tabulate by done. unfold compound_at.
    assert (~ discount_at (prates inflation) b t == 0) as Hdisc.
    { apply (discount_at_nonzero inflation base_date); [done..|lia]. }
    split; by field.
  - rewrite !nth_overflow by (rewrite ?length_tabulate; lia). done.
Qed.

Lemma const2curr_curr2const_round_trip_witness :
  let cflo := {| ts_start := 0; ts_pyr := 1;
                 ts_data := [100; 100; 100; 100; 100] |} in
  let inflation := {| ts_start := 0; ts_pyr := 1;
                      ts_data := [10; 10; 20; 20; 20] |} in
  exists current constant back back',
    const2curr (Scalar (OSeries cflo)) (Scalar (OSeries inflation))
      (Scalar (OInt 4)) = Ok (Scalar current)
    /\ curr2const (Scalar (OSeries current)) (Scalar (OSeries inflation))
         (Scalar (OInt 4)) = Ok (Scalar back)
    /\ curr2const (Scalar (OSeries cflo)) (Scalar (OSeries inflation))
         (Scalar (OInt 4)) = Ok (Scalar constant)
    /\ const2curr (Scalar (OSeries constant)) (Scalar (OSeries inflation))
         (Scalar (OInt 4)) = Ok (Scalar back')
    /\ ts_start back = ts_start cflo /\ ts_start back' = ts_start cflo
    /\ ts_pyr back = ts_pyr cflo /\ ts_pyr back' = ts_pyr cflo
    /\ length (ts_data back) = length (ts_data cflo)
    /\ length (ts_data back') = length (ts_data cflo)
    /\ forall t,
         nth t (ts_data back) 0 == nth t (ts_data cflo) 0
         /\ nth t (ts_data back') 0 == nth t (ts_data cflo) 0.
Proof.
  intros cflo inflation.
  apply (const2curr_curr2const_round_trip cflo inflation 4 4).
  - reflexivity.
  - done.
  - by apply rates_defined_check.
  - reflexivity.
Defined.

(** X10.  Without a devaluation series, [currency_conversion] multiplies
    every value of the cashflow by the exchange rate and never looks at the
    base date, which may be anything. *)
Theorem currency_conversion_without_devaluation (cflo : TimeSeries)
  (exchange_rate : Q) (base_date : pyobj) :
  exists res,
    currency_conversion (Scalar (OSeries cflo))
      (Scalar (OFloat exchange_rate)) (Scalar ONone) (Scalar base_date)
    = Ok (Scalar res)
    /\ ts_start res = ts_start cflo
    /\ ts_pyr res = ts_pyr cflo
    /\ length (ts_data res) = length (ts_data cflo)
    /\ forall t, (t < length (ts_data cflo))%nat ->
         nth t (ts_data res) 0 = nth t (ts_data cflo) 0 * exchange_rate.
Proof.
  eexists. split.
  { unfold currency_conversion, vars2list, currency_series.
    cbn [fold_left for_each Nat.ltb Nat.leb mbind result_bind map replicate
         getitem lookup list_lookup zip zip_with as_series].
    rewrite (exchange_loop _ exchange_rate) by done.
    reflexivity. }
  cbn [with_data ts_start ts_pyr ts_data]. rewrite length_tabulate.
  repeat split. intros t Ht. by rewrite nth_tabulate.
Qed.

(** X11.  With a devaluation series over the range of the cashflow,
    [currency_conversion] returns the exchange rate times what [const2curr]
    returns for the devaluation as inflation; at the base date that is the
    value of the cashflow times the exchange rate. *)
Theorem currency_conversion_with_devaluation (cflo devaluation : TimeSeries)
  (exchange_rate : Q) (base_date : Z) (b : nat) :
  verify_eq_time_range cflo devaluation = Ok tt ->
  ts_pyr devaluation <> 0%Z ->
  rates_defined (prates devaluation) ->
  py_index (length (ts_data devaluation)) base_date = Ok b ->
  exists current res,
    const2curr (Scalar (OSeries cflo)) (Scalar (OSeries devaluation))
      (Scalar (OInt base_date)) = Ok (Scalar current)
    /\ currency_conversion (Scalar (OSeries cflo))
         (Scalar (OFloat exchange_rate)) (Scalar (OSeries devaluation))
         (Scalar (OInt base_date)) = Ok (Scalar res)
    /\ ts_start res = ts_start cflo
    /\ ts_pyr res = ts_pyr cflo
    /\ length (ts_data res) = length (ts_data cflo)
    /\ (forall t, (t < length (ts_data cflo))%nat ->
          nth t (ts_data res) 0 == exchange_rate * nth t (ts_data current) 0)
    /\ nth b (ts_data res) 0 == nth b (ts_data cflo) 0 * exchange_rate.
Proof.
  intros Hrange Hpyr Hdefined Hbase.
  pose proof (verify_eq_time_range_length _ _ Hrange) as Hlen.
  pose proof (py_index_lt _ _ _ Hbase) as Hb.
  do 2 eexists. split; [by apply const2curr_closed|]. split.
  { unfold currency_conversion, vars2list, currency_series.
    cbn [fold_left for_each Nat.ltb Nat.leb mbind result_bind map replicate
         getitem lookup list_lookup zip zip_with as_series].
    rewrite Hrange. cbn [mbind result_bind].
    rewrite (to_compound_factor_closed _ _ _ Hpyr Hdefined Hbase).
    cbn [mbind result_bind].
    rewrite (devaluation_loop _ exchange_rate) by
      (done || by rewrite length_tabulate).
    reflexivity. }
  cbn [with_data ts_start ts_pyr ts_data]. rewrite length_tabulate.
  repeat split.
  - intros t Ht. rewrite !nth_tabulate by lia. ring.
  - rewrite !nth_tabulate by lia. unfold compound_at.
    rewrite discount_at_base.
    + field.
    + apply disc_at_nonzero; [done|by rewrite length_prates].
Qed.

Lemma currency_conversion_with_devaluation_witness :
  let cflo := {| ts_start := 0; ts_pyr := 1;
                 ts_data := [100; 100; 100; 100; 100] |} in
  let devaluation := {| ts_start := 0; ts_pyr := 1;
                        ts_data := [5; 5; 5; 5; 5] |} in
  exists current res,
    const2curr (Scalar (OSeries cflo)) (Scalar (OSeries devaluation))
      (Scalar (OInt 2)) = Ok (Scalar current)
    /\ currency_conversion (Scalar (OSeries cflo)) (Scalar (OFloat 2))
         (Scalar (OSeries devaluation)) (Scalar (OInt 2)) = Ok (Scalar res)
    /\ ts_start res = ts_start cflo
    /\ ts_pyr res = ts_pyr cflo
    /\ length (ts_data res) = length (ts_data cflo)
    /\ (forall t, (t < length (ts_data cflo))%nat ->
          nth t (ts_data res) 0 == 2 * nth t (ts_data current) 0)
    /\ nth 2 (ts_data res) 0 == nth 2 (ts_data cflo) 0 * 2.
Proof.
  intros cflo devaluation.
  apply (currency_conversion_with_devaluation cflo devaluation 2 2 2).
  - reflexivity.
  - done.
  - by apply rates_defined_check.
  - reflexivity.
Defined.

(** X12.  A cashflow that is no series (a number or [None]) stops
    [const2curr], [curr2const] and [currency_conversion] with a
    [TypeError] before anything else is looked at; with a series as
    cashflow, so does an inflation that is no series, and a devaluation that
    is neither [None] nor a series. *)
Theorem conversions_need_series (x : pyobj) (cflo : TimeSeries)
  (other exchange_rate base_date : pyobj) :
  as_series x = Raise TypeError ->
  const2curr (Scalar x) (Scalar other) (Scalar base_date) = Raise TypeError
  /\ curr2const (Scalar x) (Scalar other) (Scalar base_date)
     = Raise TypeError
  /\ currency_conversion (Scalar x) (Scalar exchange_rate) (Scalar other)
       (Scalar base_date) = Raise TypeError
  /\ const2curr (Scalar (OSeries cflo)) (Scalar x) (Scalar base_date)
     = Raise TypeError
  /\ curr2const (Scalar (OSeries cflo)) (Scalar x) (Scalar base_date)
     = Raise TypeError
  /\ (x <> ONone ->
      currency_conversion (Scalar (OSeries cflo)) (Scalar exchange_rate)
        (Scalar x) (Scalar base_date) = Raise TypeError).
Proof.
  intros Hx.
  unfold const2curr, curr2const, convert, currency_conversion, vars2list,
    convert_series, currency_series.
  cbn [fold_left for_each Nat.ltb Nat.leb mbind result_bind map replicate
       getitem lookup list_lookup zip zip_with].
  rewrite Hx. cbn [mbind result_bind as_series].
  repeat split; try done.
  intros Hnone. by destruct x.
Qed.

Lemma conversions_need_series_witness :
  let cflo := {| ts_start := 0; ts_pyr := 1; ts_data := [100; 100] |} in
  const2curr (Scalar (OFloat 100)) (Scalar (OSeries cflo)) (Scalar (OInt 0))
  = Raise TypeError
  /\ curr2const (Scalar (OFloat 100)) (Scalar (OSeries cflo))
       (Scalar (OInt 0)) = Raise TypeError
  /\ currency_conversion (Scalar (OFloat 100)) (Scalar (OFloat 2))
       (Scalar (OSeries cflo)) (Scalar (OInt 0)) = Raise TypeError
  /\ const2curr (Scalar (OSeries cflo)) (Scalar (OFloat 100))
       (Scalar (OInt 0)) = Raise TypeError
  /\ curr2const (Scalar (OSeries cflo)) (Scalar (OFloat 100))
       (Scalar (OInt 0)) = Raise TypeError
  /\ (OFloat 100 <> ONone ->
      currency_conversion (Scalar (OSeries cflo)) (Scalar (OFloat 2))
        (Scalar (OFloat 100)) (Scalar (OInt 0)) = Raise TypeError).
Proof.
  intros cflo.
  apply (conversions_need_series (OFloat 100) cflo (OSeries cflo) (OFloat 2)
           (OInt 0)).
  reflexivity.
Defined.

(** X13.  The range of periods is checked before the factors are computed:
    where [verify_eq_time_range] raises for the cashflow and the inflation
    (or devaluation), the three conversions raise just that, whatever the
    base date and the rates are. *)
Theorem conversions_check_range_first (cflo rate : TimeSeries)
  (exchange_rate base_date : pyobj) (e : exn) :
  verify_eq_time_range cflo rate = Raise e ->
  const2curr (Scalar (OSeries cflo)) (Scalar (OSeries rate))
    (Scalar base_date) = Raise e
  /\ curr2const (Scalar (OSeries cflo)) (Scalar (OSeries rate))
       (Scalar base_date) = Raise e
  /\ currency_conversion (Scalar (OSeries cflo)) (Scalar exchange_rate)
       (Scalar (OSeries rate)) (Scalar base_date) = Raise e.
Proof.
  intros Hrange.
  unfold const2curr, curr2const, convert, currency_conversion, vars2list,
    convert_series, currency_series.
  cbn [fold_left for_each Nat.ltb Nat.leb mbind result_bind map replicate
       getitem lookup list_lookup zip zip_with as_series].
  by rewrite Hrange.
Qed.

Lemma conversions_check_range_first_witness :
  let cflo := {| ts_start := 0; ts_pyr := 1; ts_data := [100; 100] |} in
  let rate := {| ts_start := 0; ts_pyr := 1; ts_data := [-100; 10; 10] |} in
  const2curr (Scalar (OSeries cflo)) (Scalar (OSeries rate)) (Scalar ONone)
  = Raise ValueError_range
  /\ curr2const (Scalar (OSeries cflo)) (Scalar (OSeries rate))
       (Scalar ONone) = Raise ValueError_range
  /\ currency_conversion (Scalar (OSeries cflo)) (Scalar ONone)
       (Scalar (OSeries rate)) (Scalar ONone) = Raise ValueError_range.
Proof.
  intros cflo rate.
  apply (conversions_check_range_first cflo rate ONone ONone).
  reflexivity.
Defined.

(** ** Arguments brought to lists of one length *)

Section Vars2list.
Context {A : Type}.
Implicit Types (params : list (value A)) (len : nat).

Lemma longest_ge params len : (len <= longest params len)%nat.
Proof.
  revert len. induction params as [|[x|l] params IH]; intros len;
    cbn [longest fold_left]; [done|apply IH|].
  etransitivity; [|apply IH]. lia.
Qed.

Lemma longest_bound params len (l : list A) :
  PyList l ∈ params -> (length l <= longest params len)%nat.
Proof.
  revert len. induction params as [|p params IH]; intros len Hin.
  - by apply elem_of_nil in Hin.
  - apply elem_of_cons in Hin as [<-|Hin]; cbn [longest fold_left].
    + etransitivity; [|apply longest_ge]. lia.
    + by apply IH.
Qed.

Lemma longest_attained params len :
  longest params len = len
  \/ exists l : list A, PyList l ∈ params /\ length l = longest params len.
Proof.
  revert len. induction params as [|[x|l] params IH]; intros len;
    cbn [longest fold_left]; [by left| |].
  - destruct (IH len) as [?|(l & Hin & Hl)]; [by left|right].
    exists l. split; [by apply elem_of_cons; right|done].
  - destruct (IH (Nat.max len (length l))) as [E|(l' & Hin & Hl)].
    + fold (longest params (Nat.max len (length l))) in *.
      destruct (Nat.max_spec len (length l)) as [[? Hmax]|[? Hmax]].
      * right. exists l. split; [apply elem_of_cons; by left|].
        by rewrite E.
      * left. by rewrite E.
    + right. exists l'. split; [by apply elem_of_cons; right|done].
Qed.

Lemma same_lengths_Ok params len :
  (forall l : list A, PyList l ∈ params -> length l = len) ->
  same_lengths params len = Ok tt.
Proof.
  induction params as [|[x|l] params IH]; intros Hall;
    cbn [same_lengths for_each mbind result_bind]; [done| |].
  - apply IH. intros l Hin. apply Hall, elem_of_cons. by right.
  - rewrite (Hall l) by (apply elem_of_cons; by left).
    rewrite Nat.eqb_refl. cbn [negb mbind result_bind].
    apply IH. intros l' Hin. apply Hall, elem_of_cons. by right.
Qed.

Lemma same_lengths_Raise params len (l : list A) :
  PyList l ∈ params -> length l <> len ->
  same_lengths params len = Raise Exception_lengths.
Proof.
  induction params as [|p params IH]; intros Hin Hl.
  - by apply elem_of_nil in Hin.
  - cbn [same_lengths for_each mbind result_bind].
    apply elem_of_cons in Hin as [<-|Hin].
    + by destruct (Nat.eqb_spec (length l) len).
    + destruct p as [x|l']; cbn [mbind result_bind]; [by apply IH|].
      destruct (negb (length l' =? len)%nat); [done|].
      cbn [mbind result_bind]. by apply IH.
Qed.

Lemma vars2list_unfold params :
  vars2list params
  = ((if (1 <? longest params 1)%nat
      then same_lengths params (longest params 1) else Ok tt);;
     Ok (map (fun param =>
                match param with
                | PyList l => l
                | Scalar x => replicate (longest params 1) x
                end) params)).
Proof. reflexivity. Qed.

Lemma vars2list_Raise params (l1 l2 : list A) :
  PyList l1 ∈ params -> PyList l2 ∈ params ->
  (1 < length l1)%nat -> length l1 <> length l2 ->
  vars2list params = Raise Exception_lengths.
Proof.
  intros Hin1 Hin2 Hlong Hdiff. rewrite vars2list_unfold.
  pose proof (longest_bound params 1 l1 Hin1) as Hbound.
  destruct (Nat.ltb_spec 1 (longest params 1)); [|lia].
  destruct (decide (length l1 = longest params 1)) as [E|E].
  - by rewrite (same_lengths_Raise params _ l2) by (done || lia).
  - by rewrite (same_lengths_Raise params _ l1).
Qed.

Lemma vars2list_Ok params :
  (forall l1 l2 : list A, PyList l1 ∈ params -> PyList l2 ∈ params ->
     (1 < length l1)%nat -> length l1 = length l2) ->
  vars2list params
  = Ok (map (fun param =>
               match param with
               | PyList l => l
               | Scalar x => replicate (longest params 1) x
               end) params).
Proof.
  intros Hsame. rewrite vars2list_unfold.
  destruct (Nat.ltb_spec 1 (longest params 1)) as [Hlong|Hshort]; [|done].
  rewrite same_lengths_Ok; [done|]. intros l Hin.
  destruct (longest_attained params 1) as [?|(l' & Hin' & Hl')]; [lia|].
  rewrite <- Hl'. symmetry. apply Hsame; [done..|lia].
Qed.
End Vars2list.

Lemma same_lengths_inv {A} (params : list (value A)) (len : nat) (e : exn) :
  same_lengths params len = Raise e ->
  e = Exception_lengths
  /\ exists l : list A, PyList l ∈ params /\ length l <> len.
Proof.
  induction params as [|[x|l] params IH];
    cbn [same_lengths for_each mbind result_bind]; [done| |].
  - intros Hrun. destruct (IH Hrun) as (-> & l & Hin & Hl).
    split; [done|]. exists l. split; [by apply elem_of_cons; right|done].
  - destruct (Nat.eqb_spec (length l) len) as [E|E];
      cbn [negb mbind result_bind].
    + intros Hrun. destruct (IH Hrun) as (-> & l' & Hin & Hl).
      split; [done|]. exists l'. split; [by apply elem_of_cons; right|done].
    + intros [= <-]. split; [done|]. exists l.
      split; [apply elem_of_cons; by left|done].
Qed.

Lemma same_lengths_Ok_inv {A} (params : list (value A)) (len : nat)
  (l : list A) :
  same_lengths params len = Ok tt -> PyList l ∈ params -> length l = len.
Proof.
  intros Hrun Hin. destruct (decide (length l = len)) as [|Hl]; [done|].
  by rewrite (same_lengths_Raise params len l) in Hrun.
Qed.

(** X14.  [vars2list] raises just when two of the arguments are lists of
    different lengths and one of them is longer than 1; it raises nothing
    else.  (So lists of length 0 and 1 pass together, and with scalars.) *)
Theorem vars2list_raises_iff {A} (params : list (value A)) :
  (vars2list params = Raise Exception_lengths
   <-> exists l1 l2 : list A,
         PyList l1 ∈ params /\ PyList l2 ∈ params
         /\ (1 < length l1)%nat /\ length l1 <> length l2)
  /\ forall e, vars2list params = Raise e -> e = Exception_lengths.
Proof.
  assert (forall e, vars2list params = Raise e ->
            e = Exception_lengths
            /\ exists l1 l2 : list A,
                 PyList l1 ∈ params /\ PyList l2 ∈ params
                 /\ (1 < length l1)%nat /\ length l1 <> length l2) as Hinv.
  { intros e. rewrite vars2list_unfold.
    destruct (Nat.ltb_spec 1 (longest params 1)) as [Hlong|Hshort]; [|done].
    destruct (same_lengths params (longest params 1)) as [[]|e'] eqn:Hrun;
      [done|].
    intros [= <-].
    destruct (same_lengths_inv _ _ _ Hrun) as (-> & l & Hin & Hl).
    split; [done|].
    destruct (longest_attained params 1) as [?|(l' & Hin' & Hl')]; [lia|].
    exists l', l. repeat split; [done..|lia|lia]. }
  split; [split|].
  - intros Hrun. by destruct (Hinv _ Hrun).
  - intros (l1 & l2 & Hin1 & Hin2 & Hlong & Hdiff).
    by apply (vars2list_Raise params l1 l2).
  - intros e Hrun. by destruct (Hinv _ Hrun).
Qed.

(** X15.  Where [vars2list] returns, it returns one list for each argument:
    a list argument as it is, a scalar repeated [len] times, where [len] is
    1 or the length of the longest list; if [len > 1] every list returned
    has [len] elements. *)
Theorem vars2list_result {A} (params : list (value A))
  (lists : list (list A)) :
  vars2list params = Ok lists ->
  exists len,
    (1 <= len)%nat
    /\ (len = 1%nat \/ exists l : list A, PyList l ∈ params /\ length l = len)
    /\ length lists = length params
    /\ (forall i (l : list A), params !! i = Some (PyList l) ->
          lists !! i = Some l /\ (length l <= len)%nat)
    /\ (forall i (x : A), params !! i = Some (Scalar x) ->
          lists !! i = Some (replicate len x))
    /\ ((1 < len)%nat -> forall l, l ∈ lists -> length l = len).
Proof.
  rewrite vars2list_unfold. intros Hrun.
  assert (((1 < longest params 1)%nat ->
           same_lengths params (longest params 1) = Ok tt)
          /\ lists = map (fun param =>
                            match param with
                            | PyList l => l
                            | Scalar x => replicate (longest params 1) x
                            end) params) as [Hsame ->].
  { destruct (Nat.ltb_spec 1 (longest params 1)) as [Hlong|Hshort].
    - destruct (same_lengths params (longest params 1)) as [[]|e];
        [|done].
      injection Hrun as <-. by split.
    - injection Hrun as <-. split; [lia|done]. }
  exists (longest params 1). split; [apply longest_ge|].
  split; [apply longest_attained|].
  split; [by rewrite length_map|].
  split; [|split].
  - intros i l Hi. split.
    + change (map ?f params) with (f <$> params).
      by rewrite list_lookup_fmap, Hi.
    + apply longest_bound. by apply (list_elem_of_lookup_2 _ i).
  - intros i x Hi. change (map ?f params) with (f <$> params).
    by rewrite list_lookup_fmap, Hi.
  - intros Hlong l Hin. change (map ?f params) with (f <$> params) in Hin.
    apply list_elem_of_fmap in Hin as ([x|l'] & -> & Hin).
    + apply length_replicate.
    + by apply (same_lengths_Ok_inv params); [apply Hsame|].
Qed.

Lemma vars2list_result_witness :
  exists len,
    (1 <= len)%nat
    /\ (len = 1%nat
        \/ exists l : list Z,
             PyList l ∈ [Scalar 1%Z; PyList [2%Z; 3%Z]] /\ length l = len)
    /\ length [[1%Z; 1%Z]; [2%Z; 3%Z]]
       = length [Scalar 1%Z; PyList [2%Z; 3%Z]]
    /\ (forall i (l : list Z),
          [Scalar 1%Z; PyList [2%Z; 3%Z]] !! i = Some (PyList l) ->
          [[1%Z; 1%Z]; [2%Z; 3%Z]] !! i = Some l /\ (length l <= len)%nat)
    /\ (forall i (x : Z),
          [Scalar 1%Z; PyList [2%Z; 3%Z]] !! i = Some (Scalar x) ->
          [[1%Z; 1%Z]; [2%Z; 3%Z]] !! i = Some (replicate len x))
    /\ ((1 < len)%nat ->
        forall l, l ∈ [[1%Z; 1%Z]; [2%Z; 3%Z]] -> length l = len).
Proof.
  apply (vars2list_result [Scalar 1%Z; PyList [2%Z; 3%Z]]
           [[1%Z; 1%Z]; [2%Z; 3%Z]]).
  reflexivity.
Defined.

(** ** What [tvmm] raises and the shape of what it returns *)


Lemma broadcast_Some (ss : list shape) (n : nat) :
  broadcast ss = Ok (Some n) -> Some n ∈ ss.
Proof.
  revert n. induction ss as [|a ss IH]; intros n; cbn [broadcast]; [done|].
  destruct (broadcast ss) as [t|e]; cbn [mbind result_bind]; [|done].
  destruct a as [k|], t as [m|]; cbn [broadcast2].
  - destruct (k =? m)%nat; [intros [= <-]; apply elem_of_cons; by left|].
    destruct (k =? 1)%nat;
      [intros [= <-]; apply elem_of_cons; right; by apply IH|].
    destruct (m =? 1)%nat; [intros [= <-]; apply elem_of_cons; by left|done].
  - intros [= <-]. apply elem_of_cons. by left.
  - intros [= <-]. apply elem_of_cons. right. by apply IH.
  - done.
Qed.

Lemma broadcast_None (ss : list shape) (s : shape) :
  broadcast ss = Ok None -> s ∈ ss -> s = None.
Proof.
  induction ss as [|a ss IH]; intros Hrun Hin.
  - by apply elem_of_nil in Hin.
  - cbn [broadcast] in Hrun.
    destruct (broadcast ss) as [t|e]; cbn [mbind result_bind] in Hrun;
      [|done].
    destruct a as [k|], t as [m|]; cbn [broadcast2] in Hrun; try done.
    + destruct (k =? m)%nat; [done|]. destruct (k =? 1)%nat; [done|].
      by destruct (m =? 1)%nat.
    + apply elem_of_cons in Hin as [->|Hin]; [done|by apply IH].
Qed.

Lemma shape_of_np_build {A} (s : shape) (at_ : nat -> A) :
  shape_of (np_build s at_) = s.
Proof.
  destruct s as [n|]; cbn [np_build shape_of]; [|done].
  by rewrite length_map, length_seq.
Qed.

(** The rule of the shape of a result for the shapes of the operands. *)
Lemma np_map5_shape {A} (d : A) f (a b c e g : value A) (v : value A) :
  np_map5 d f a b c e g = Ok v ->
  match shape_of v with
  | None => forall s, s ∈ shape_of <$> [a; b; c; e; g] -> s = None
  | Some n =>
      Some n ∈ shape_of <$> [a; b; c; e; g]
      /\ forall m, Some m ∈ shape_of <$> [a; b; c; e; g] ->
           m = 1%nat \/ m = n
  end.
Proof.
  unfold np_map5.
  destruct (broadcast _) as [s|err] eqn:E; cbn [mbind result_bind]; [|done].
  intros [= <-]. rewrite shape_of_np_build. destruct s as [n|].
  - split; [by apply broadcast_Some|]. intros m Hm.
    destruct (broadcast_Ok _ _ E m Hm) as [?|[= ?]]; [by left|by right].
  - intros s Hs. by apply (broadcast_None _ s E).
Qed.


(** X17.  What [tvmm] returns has the shape numpy's broadcasting gives the
    operands: a number when pyr and the supplied parameters are numbers;
    otherwise a list as long as one of the lists among them, and then every
    list among them has that length or length 1. *)
Theorem tvmm_result_shape `{Numpy}
  (pval fval pmt nrate nper : option (value Q)) (due : Z) (pyr : value Q)
  (v : value Q) :
  tvmm pval fval pmt nrate nper due pyr = Ok v ->
  match shape_of v with
  | None =>
      forall s, s ∈ shape_of <$> tvmm_operands pval fval pmt nrate nper pyr ->
                s = None
  | Some n =>
      Some n ∈ shape_of <$> tvmm_operands pval fval pmt nrate nper pyr
      /\ forall m,
           Some m ∈ shape_of <$> tvmm_operands pval fval pmt nrate nper pyr ->
           m = 1%nat \/ m = n
  end.
Proof.
  unfold tvmm, tvmm_operands.
  destruct pval as [pv|], fval as [fv|], pmt as [p|], nrate as [nr|],
    nper as [n|];
    cbn [is_none Nat.add Nat.ltb Nat.leb Nat.eqb mbind result_bind need
         omap list_omap]; try done.
  all: try (destruct (shape_of_nonzero_pmt p) as (p' & -> & Hp');
            cbn [mbind result_bind need]).
  all: cbn [nonzero_pmt].
  all: intros Hrun; apply np_map5_shape in Hrun; revert Hrun.
  all: cbn [fmap list_fmap]; rewrite ?Hp'.
  all: destruct (shape_of v) as [k|].
  all: try (intros [Hin Hall]; split;
            [revert Hin; rewrite !elem_of_cons, !elem_of_nil; tauto
            |intros m Hm; apply Hall; revert Hm;
             rewrite !elem_of_cons, !elem_of_nil; tauto]).
  all: intros Hall s Hs; apply Hall; revert Hs;
    rewrite !elem_of_cons, !elem_of_nil; tauto.
Qed.

Lemma tvmm_result_shape_witness :
  exists v,
    @tvmm numpy_exact (Some (PyList [100])) (Some (PyList [0; 0])) None
      (Some (Scalar 10)) (Some (Scalar 1)) 0 (Scalar 1) = Ok v
    /\ match shape_of v with
       | None =>
           forall s,
             s ∈ shape_of <$> tvmm_operands (Some (PyList [100]))
                   (Some (PyList [0; 0])) None (Some (Scalar 10))
                   (Some (Scalar 1)) (Scalar 1) ->
             s = None
       | Some n =>
           Some n ∈ shape_of <$> tvmm_operands (Some (PyList [100]))
                      (Some (PyList [0; 0])) None (Some (Scalar 10))
                      (Some (Scalar 1)) (Scalar 1)
           /\ forall m,
                Some m ∈ shape_of <$> tvmm_operands (Some (PyList [100]))
                           (Some (PyList [0; 0])) None (Some (Scalar 10))
                           (Some (Scalar 1)) (Scalar 1) ->
                m = 1%nat \/ m = n
       end.
Proof.
  eexists. split; [vm_compute; reflexivity|].
  apply (@tvmm_result_shape numpy_exact (Some (PyList [100]))
           (Some (PyList [0; 0])) None (Some (Scalar 10)) (Some (Scalar 1))
           0 (Scalar 1)).
  vm_compute. reflexivity.
Defined.

(** ** The schedule at the edges: whole floats, negative periods, due *)

(** X18.  A number of periods that is a [float] of whole value, supplied so
    or solved by [tvmm], is not rounded and stays a [float]: the lists of
    the schedule cannot be built and [amortize] raises a [TypeError]. *)
Theorem amortize_whole_float_nper `{Numpy} (pval fval pmt nrate : option Q)
  (nper : option number) (due : Z) (pyr : Q) (t : tvm) (q : Q) :
  resolve pval fval pmt nrate nper due pyr = Ok t ->
  t_nper t = Float q ->
  inject_Z (py_int q) == q ->
  ~ pyr == 0 ->
  amortize pval fval pmt nrate nper due pyr = Raise TypeError.
Proof.
  intros Ht Hq Hwhole Hpyr.
  unfold amortize, amortize_rows, schedule. rewrite Ht.
  cbn [mbind result_bind].
  destruct (Qeq_bool pyr 0) eqn:E; [by apply Qeq_bool_iff in E|].
  cbn [mbind result_bind]. rewrite Hq. unfold round_nper. cbn [number_Q].
  apply Qeq_bool_iff in Hwhole. by rewrite Hwhole.
Qed.

Lemma amortize_whole_float_nper_witness :
  @amortize numpy_exact (Some 100) (Some 0) None (Some 10) (Some (Float 5))
    0 1
  = Raise TypeError.
Proof.
  eapply (@amortize_whole_float_nper numpy_exact (Some 100) (Some 0) None
            (Some 10) (Some (Float 5)) 0 1 _ 5).
  - reflexivity.
  - reflexivity.
  - reflexivity.
  - intros E. vm_compute in E. discriminate E.
Defined.

(** X19.  A number of periods that is negative after rounding leaves the
    lists of the schedule empty, and [amortize] raises an [IndexError] at
    its first assignment, whatever [due] is. *)
Theorem amortize_negative_nper `{Numpy} (pval fval pmt nrate : option Q)
  (nper : option number) (due : Z) (pyr : Q) (t : tvm) (z : Z) :
  resolve pval fval pmt nrate nper due pyr = Ok t ->
  round_nper (t_nper t) = Int z ->
  (z < 0)%Z ->
  ~ pyr == 0 ->
  amortize pval fval pmt nrate nper due pyr = Raise IndexError.
Proof.
  intros Ht Hn Hz Hpyr. unfold amortize, amortize_rows. rewrite Ht.
  cbn [mbind result_bind]. by rewrite (schedule_negative t due pyr z).
Qed.

Lemma amortize_negative_nper_witness :
  @amortize numpy_exact (Some 100) (Some 0) None (Some 10)
    (Some (Float (-25 # 10))) 0 1
  = Raise IndexError.
Proof.
  eapply (@amortize_negative_nper numpy_exact (Some 100) (Some 0) None
            (Some 10) (Some (Float (-25 # 10))) 0 1 _ (-1)).
  - reflexivity.
  - reflexivity.
  - reflexivity.
  - intros E. vm_compute in E. discriminate E.
Defined.

Section BalanceDue.
Variables (pval pmt erate : Q) (nper : nat).

(** With payments at the start of the periods, the balance before the last
    period holds one payment more than periods have passed. *)
Lemma bal_at_due_before (k : nat) :
  (k < nper)%nat ->
  bal_at pval pmt erate 1 nper k
  == pval * (1 + erate) ^ Z.of_nat k + pmt * geo erate (S k).
Proof.
  intros Hk. induction k as [|k IH].
  - cbn [bal_at geo]. unfold pay_at.
    destruct (Nat.eqb_spec 0 nper); [lia|].
    change (pval + pmt == pval * 1 + pmt * ((1 + erate) * 0 + 1)). ring.
  - rewrite Qpower_succ. cbn [bal_at]. rewrite IH by lia.
    unfold pay_at. destruct (Nat.eqb_spec (S k) nper); [lia|].
    cbn [Z.eqb Pos.eqb andb geo]. ring.
Qed.

Lemma bal_at_due_last :
  bal_at pval pmt erate 1 nper nper
  == pval * (1 + erate) ^ Z.of_nat nper + pmt * ((1 + erate) * geo erate nper).
Proof.
  destruct nper as [|n] eqn:En.
  - cbn [bal_at geo]. unfold pay_at.
    change (pval + 0 == pval * 1 + pmt * ((1 + erate) * 0)). ring.
  - rewrite Qpower_succ. cbn [bal_at]. rewrite <- En.
    rewrite bal_at_due_before by lia. unfold pay_at.
    rewrite En, Nat.eqb_refl. cbn [Z.eqb Pos.eqb andb geo]. ring.
Qed.
End BalanceDue.

Lemma annuity_geo_due (rate : Q) (n : nat) (pv pmt fv : Q) :
  annuity rate n pv pmt fv 1
  == fv + pv * (1 + rate) ^ Z.of_nat n + pmt * ((1 + rate) * geo rate n).
Proof.
  unfold annuity. destruct (Qeq_bool rate 0) eqn:E.
  - apply Qeq_bool_iff in E. rewrite geo_zero_rate by done. rewrite E. ring.
  - apply Qeq_bool_neq in E. rewrite geo_nonzero_rate by done. by field.
Qed.

(** X20.  With payments due at the start ([due=1]), a whole nper of at
    least one period, and resolved parameters that satisfy numpy's equation
    for [when=1], the balance of the last row is -fval, and the principal of
    the periods 1..nper sums to -fval - pval - pmt: the first payment is in
    row 0. *)
Theorem amortize_due_closes `{Numpy} (pval fval pmt nrate : option Q)
  (nper : option number) (pyr : Q) (t : tvm) (n : nat) :
  resolve pval fval pmt nrate nper 1 pyr = Ok t ->
  t_nper t = Int (Z.of_nat n) ->
  (1 <= n)%nat ->
  ~ pyr == 0 ->
  annuity (t_nrate t / pyr / 100) n (t_pval t) (t_pmt t) (t_fval t) 1 == 0 ->
  exists principal interest payment balance,
    amortize pval fval pmt nrate nper 1 pyr
    = Ok (principal, interest, payment, balance)
    /\ nth 0 balance 0 == t_pval t + t_pmt t
    /\ nth n balance 0 == - t_fval t
    /\ sum_from_1 principal == - t_fval t - t_pval t - t_pmt t.
Proof.
  intros Ht Hn Hone Hpyr Heq. do 4 eexists.
  split; [apply (amortize_closed _ _ _ _ _ _ _ t n);
          [done|by rewrite Hn, round_nper_Int|done]|].
  rewrite annuity_geo_due in Heq.
  rewrite !nth_tabulate by lia. rewrite sum_principal, bal_at_due_last.
  assert (bal_at (t_pval t) (t_pmt t) (t_nrate t / pyr / 100) 1 n 0
          == t_pval t + t_pmt t) as H0.
  { cbn [bal_at]. unfold pay_at. destruct (Nat.eqb_spec 0 n); [lia|].
    cbn [Z.eqb Pos.eqb andb]. reflexivity. }
  rewrite H0. split; [reflexivity|]. split; lra.
Qed.

Lemma amortize_due_closes_witness :
  exists t,
    @resolve numpy_exact (Some 100) (Some (-50)) None (Some 10)
      (Some (Int 2)) 1 1 = Ok t
    /\ exists principal interest payment balance,
      @amortize numpy_exact (Some 100) (Some (-50)) None (Some 10)
        (Some (Int 2)) 1 1
      = Ok (principal, interest, payment, balance)
      /\ nth 0 balance 0 == t_pval t + t_pmt t
      /\ nth 2 balance 0 == - t_fval t
      /\ sum_from_1 principal == - t_fval t - t_pval t - t_pmt t.
Proof.
  eexists. split; [reflexivity|].
  apply (@amortize_due_closes numpy_exact (Some 100) (Some (-50)) None
           (Some 10) (Some (Int 2)) 1 _ 2%nat).
  - reflexivity.
  - reflexivity.
  - lia.
  - intros E. vm_compute in E. discriminate E.
  - vm_compute. reflexivity.
Defined.



(** ** The wrappers of [tvmm] *)

(** X22.  With all four of their arguments supplied, the wrappers solve the
    payment: [pvfv] returns numpy's [pmt] for the four values, and [pmtfv]
    and [pvpmt] return what they return with the payment unset, whatever
    payment was supplied. *)
Theorem wrappers_over_determined `{Numpy} (pval fval pmt nrate nper : value Q)
  (pyr : value Q) :
  pvfv (Some pval) (Some fval) (Some nrate) (Some nper) pyr
  = np_map5 0 (fun nrate pyr nper pval fval =>
                 np_pmt (nrate / 100 / pyr) nper pval fval 0)
      nrate pyr nper pval fval
  /\ pmtfv (Some pmt) (Some fval) (Some nrate) (Some nper) pyr
     = pmtfv None (Some fval) (Some nrate) (Some nper) pyr
  /\ pvpmt (Some pmt) (Some pval) (Some nrate) (Some nper) pyr
     = pvpmt None (Some pval) (Some nrate) (Some nper) pyr.
Proof. repeat split; reflexivity. Qed.

(** X23.  [pvfv] computes with the payment 0.0000001, not 0: where numpy's
    [fv] solves its equation, the future value [pvfv] returns for a present
    value over [n] periods at the periodic rate [i = nrate/100/pyr] is
    [-pval*(1+i)^n - 0.0000001*(1 + (1+i) + ... + (1+i)^(n-1))]. *)
Theorem pvfv_future_value `{Numpy} (pval nrate pyr : Q) (n : nat) :
  (forall rate pmt pv when,
     annuity rate n pv pmt (np_fv rate (inject_Z (Z.of_nat n)) pmt pv when)
       when == 0) ->
  exists fval,
    pvfv (Some (Scalar pval)) None (Some (Scalar nrate))
      (Some (Scalar (inject_Z (Z.of_nat n)))) (Scalar pyr)
    = Ok (Scalar fval)
    /\ fval == - (pval * (1 + nrate / 100 / pyr) ^ Z.of_nat n)
               - (1 # 10000000) * geo (nrate / 100 / pyr) n.
Proof.
  intros Hfv. eexists. split; [reflexivity|].
  cbn [item]. change (inject_Z 0) with 0.
  specialize (Hfv (nrate / 100 / pyr) (1 # 10000000) pval 0).
  rewrite annuity_geo in Hfv. lra.
Qed.

Lemma pvfv_future_value_witness :
  exists fval,
    @pvfv numpy_exact (Some (Scalar 100)) None (Some (Scalar 10))
      (Some (Scalar (inject_Z (Z.of_nat 5)))) (Scalar 1)
    = Ok (Scalar fval)
    /\ fval == - (100 * (1 + 10 / 100 / 1) ^ Z.of_nat 5)
               - (1 # 10000000) * geo (10 / 100 / 1) 5.
Proof.
  apply (@pvfv_future_value numpy_exact 100 10 1 5).
  intros rate pmt pv when. apply annuity_exact_fv.
Defined.

(** ** Rates: more of [iconv] *)

Section Bernoulli.
Local Open Scope R_scope.

End Bernoulli.

(** X24.  For a periodic rate [y > -100] and [p > 0] periods per year,
    [iconv(prate=y, pyr=p)] returns [(nominal, effective)] with
    [nominal = p*y] and [effective = 100*((1 + y/100)^p - 1)], and
    [iconv(nrate=nominal, pyr=p)] returns [(effective, y)]. *)
Theorem iconv_periodic_round_trip (y : R) (p : nat) :
  (-100 < y)%R ->
  (0 < p)%nat ->
  let nominal := (INR p * y)%R in
  let effective := (100 * ((1 + y / 100) ^ p - 1))%R in
  Rates.iconv None None (Some (Scalar y)) (Scalar (INR p))
  = Ok (Scalar nominal, Scalar effective)
  /\ Rates.iconv (Some (Scalar nominal)) None None (Scalar (INR p))
     = Ok (Scalar effective, Scalar y).
Proof.
  intros Hy Hp nominal effective.
  pose proof (pyr_ge_1 p Hp) as Hq.
  unfold Rates.iconv, Rates.np_zip, Rates.shaped, np_map2.
  cbn [is_none Nat.add Nat.eqb negb Rates.lengths_differ Rates.max_len
       Rates.as_array replicate broadcast broadcast2 shape_of length
       mbind result_bind np_build map seq item nth getitem lookup
       list_lookup need].
  unfold Rates.np_power. subst nominal effective.
  assert (INR p * y / INR p = y)%R as -> by (field; lra).
  rewrite Rpower_pow by lra. done.
Qed.

Lemma iconv_periodic_round_trip_witness :
  let nominal := (INR 12 * 1)%R in
  let effective := (100 * ((1 + 1 / 100) ^ 12 - 1))%R in
  Rates.iconv None None (Some (Scalar 1%R)) (Scalar (INR 12))
  = Ok (Scalar nominal, Scalar effective)
  /\ Rates.iconv (Some (Scalar nominal)) None None (Scalar (INR 12))
     = Ok (Scalar effective, Scalar 1%R).
Proof.
  apply (iconv_periodic_round_trip 1 12); [lra|lia].
Defined.



Lemma np_zip_cases (f : R -> R -> R) (a b : list R) :
  (exists l, Rates.np_zip f a b = Ok l)
  \/ Rates.np_zip f a b = Raise ValueError_broadcast.
Proof.
  unfold Rates.np_zip, np_map2.
  cbn [shape_of broadcast mbind result_bind broadcast2].
  destruct (length a =? length b)%nat; [left; by eexists|].
  destruct (length a =? 1)%nat; [left; by eexists|].
  destruct (length b =? 1)%nat; [left; by eexists|by right].
Qed.

Lemma shaped_cases (maxlen : nat) (x : list R) :
  (exists v, Rates.shaped maxlen x = Ok v)
  \/ Rates.shaped maxlen x = Raise IndexError.
Proof.
  unfold Rates.shaped. destruct (maxlen =? 1)%nat; [|left; by eexists].
  destruct x as [|r x]; [by right|left; by eexists].
Qed.


(** X26.  [iconv] raises its first [ValueError] just when the rates given
    are not exactly one; with one rate given, a list of rates and a list
    for pyr of different lengths raise the second. *)
Theorem iconv_raises (nrate erate prate : option (value R)) (pyr : value R) :
  (Rates.iconv nrate erate prate pyr = Raise ValueError_rates
   <-> (is_none nrate + is_none erate + is_none prate)%nat <> 2%nat)
  /\ ((is_none nrate + is_none erate + is_none prate)%nat = 2%nat ->
      Rates.lengths_differ nrate pyr || Rates.lengths_differ erate pyr
      || Rates.lengths_differ prate pyr = true ->
      Rates.iconv nrate erate prate pyr = Raise ValueError_lists).
Proof.
  unfold Rates.iconv. split.
  - destruct (Nat.eqb_spec (is_none nrate + is_none erate + is_none prate) 2)
      as [Hnone|Hnone]; cbn [negb]; [|done].
    split; [|done]. intros Hrun. exfalso. revert Hrun.
    destruct (Rates.lengths_differ nrate pyr); [done|].
    destruct (Rates.lengths_differ erate pyr); [done|].
    destruct (Rates.lengths_differ prate pyr); [done|].
    destruct nrate as [nr|], erate as [er|], prate as [pr|];
      cbn in Hnone; try lia; cbn [need mbind result_bind].
    all: repeat match goal with
           | |- context [Rates.np_zip ?f ?a ?b] =>
               destruct (np_zip_cases f a b) as [[? ->]| ->];
               cbn [mbind result_bind]; [|done]
           | |- context [Rates.shaped ?m ?x] =>
               destruct (shaped_cases m x) as [[? ->]| ->];
               cbn [mbind result_bind]; [|done]
           end.
    all: done.
  - intros -> Hdiffer. cbn [Nat.eqb negb].
    destruct (Rates.lengths_differ nrate pyr); [done|].
    destruct (Rates.lengths_differ erate pyr); [done|].
    by destruct (Rates.lengths_differ prate pyr).
Qed.

(** X27.  A list of one rate is taken as the rate itself, and two numbers
    come back, not lists; an empty list of rates raises an [IndexError]. *)
Theorem iconv_short_lists (x pyr : R) :
  Rates.iconv (Some (PyList [x])) None None (Scalar pyr)
  = Rates.iconv (Some (Scalar x)) None None (Scalar pyr)
  /\ Rates.iconv None (Some (PyList [x])) None (Scalar pyr)
     = Rates.iconv None (Some (Scalar x)) None (Scalar pyr)
  /\ Rates.iconv None None (Some (PyList [x])) (Scalar pyr)
     = Rates.iconv None None (Some (Scalar x)) (Scalar pyr)
  /\ Rates.iconv (Some (PyList [])) None None (Scalar pyr)
     = Raise IndexError
  /\ Rates.iconv None (Some (PyList [])) None (Scalar pyr)
     = Raise IndexError
  /\ Rates.iconv None None (Some (PyList [])) (Scalar pyr)
     = Raise IndexError.
Proof. repeat split; reflexivity. Qed.



(** ** Lists of cashflows *)

Lemma vars2list_list_scalars {A} (l : list A) (a b : A) :
  (2 <= length l)%nat ->
  vars2list [PyList l; Scalar a; Scalar b]
  = Ok [l; replicate (length l) a; replicate (length l) b].
Proof.
  intros Hlong. rewrite vars2list_Ok.
  - cbn [map longest fold_left]. by rewrite Nat.max_r by lia.
  - intros l1 l2 Hin1 Hin2 _.
    rewrite !elem_of_cons, elem_of_nil in Hin1, Hin2.
    destruct Hin1 as [[= ->]|[?|[?|[]]]]; try done.
    by destruct Hin2 as [[= ->]|[?|[?|[]]]].
Qed.

Lemma convert_series_loop
  (to_factor : TimeSeries -> pyobj -> result (list Q))
  (inflation : TimeSeries) (base_date : pyobj) (factor : list Q)
  (cs : list TimeSeries) :
  to_factor inflation base_date = Ok factor ->
  length factor = length (ts_data inflation) ->
  (forall c, c ∈ cs -> verify_eq_time_range c inflation = Ok tt) ->
  forall (n : nat) (retval : list TimeSeries),
    (length cs <= n)%nat ->
    for_each (convert_series to_factor)
      (zip (zip (OSeries <$> cs) (replicate n (OSeries inflation)))
         (replicate n base_date)) retval
    = Ok (retval
          ++ ((fun c => with_data c
                          (tabulate (length (ts_data c))
                             (fun t => nth t (ts_data c) 0 * nth t factor 0)))
              <$> cs)).
Proof.
  intros Hfactor Hlen. induction cs as [|c cs IH]; intros Hrange n retval Hn.
  - cbn [fmap list_fmap zip zip_with for_each]. by rewrite app_nil_r.
  - destruct n as [|n]; [cbn [length] in Hn; lia|].
    cbn [fmap list_fmap replicate zip zip_with for_each convert_series
         as_series mbind result_bind].
    assert (verify_eq_time_range c inflation = Ok tt) as Hc
      by (apply Hrange, elem_of_cons; by left).
    rewrite Hc. cbn [mbind result_bind]. rewrite Hfactor.
    cbn [mbind result_bind].
    rewrite scale_loop
      by by rewrite Hlen, (verify_eq_time_range_length _ _ Hc).
    cbn [mbind result_bind].
    change (zip_with pair ?x ?y) with (zip x y).
    rewrite IH.
    + by rewrite <- app_assoc.
    + intros c' Hin. apply Hrange, elem_of_cons. by right.
    + cbn [length] in Hn. lia.
Qed.

(** X29.  For a list of two or more cashflows, each over the range of the
    one inflation series, [const2curr] and [curr2const] return a list with
    one series for each cashflow, in their order: the series they return
    for that cashflow alone. *)
Theorem conversions_of_lists (cs : list TimeSeries) (inflation : TimeSeries)
  (base_date : Z) (b : nat) :
  (2 <= length cs)%nat ->
  (forall c, c ∈ cs -> verify_eq_time_range c inflation = Ok tt) ->
  ts_pyr inflation <> 0%Z ->
  rates_defined (prates inflation) ->
  py_index (length (ts_data inflation)) base_date = Ok b ->
  exists current constant,
    const2curr (PyList (OSeries <$> cs)) (Scalar (OSeries inflation))
      (Scalar (OInt base_date)) = Ok (PyList current)
    /\ curr2const (PyList (OSeries <$> cs)) (Scalar (OSeries inflation))
         (Scalar (OInt base_date)) = Ok (PyList constant)
    /\ length current = length cs
    /\ length constant = length cs
    /\ forall i c, cs !! i = Some c ->
         exists r r',
           current !! i = Some r /\ constant !! i = Some r'
           /\ const2curr (Scalar (OSeries c)) (Scalar (OSeries inflation))
                (Scalar (OInt base_date)) = Ok (Scalar r)
           /\ curr2const (Scalar (OSeries c)) (Scalar (OSeries inflation))
                (Scalar (OInt base_date)) = Ok (Scalar r').
Proof.
  intros Hlong Hrange Hpyr Hdefined Hbase.
  pose proof (to_compound_factor_closed _ _ _ Hpyr Hdefined Hbase) as Hcomp.
  pose proof (to_discount_factor_closed _ _ _ Hpyr Hdefined Hbase) as Hdisc.
  assert (forall to_factor factor,
            to_factor inflation (OInt base_date) = Ok factor ->
            length factor = length (ts_data inflation) ->
            convert to_factor (PyList (OSeries <$> cs))
              (Scalar (OSeries inflation)) (Scalar (OInt base_date))
            = Ok (PyList
                    ((fun c => with_data c
                                 (tabulate (length (ts_data c))
                                    (fun t => nth t (ts_data c) 0
                                              * nth t factor 0)))
                     <$> cs))) as Hlist.
  { intros to_factor factor Hfactor Hlen. unfold convert.
    rewrite vars2list_list_scalars by by rewrite length_fmap.
    cbn [mbind result_bind getitem lookup list_lookup].
    rewrite length_fmap.
    rewrite (convert_series_loop _ _ _ factor) by done.
    cbn [mbind result_bind app]. unfold unwrap_single.
    rewrite length_fmap.
    destruct (Nat.eqb_spec (length cs) 1) as [?|_]; [lia|done]. }
  do 2 eexists.
  split; [apply (Hlist _ _ Hcomp); by rewrite length_tabulate|].
  split; [apply (Hlist _ _ Hdisc); by rewrite length_tabulate|].
  rewrite !length_fmap. split; [done|]. split; [done|].
  intros i c Hi. do 2 eexists.
  rewrite !list_lookup_fmap, Hi. cbn [fmap option_fmap option_map].
  assert (verify_eq_time_range c inflation = Ok tt) as Hc
    by by apply Hrange, (list_elem_of_lookup_2 _ i).
  split; [done|]. split; [done|]. split.
  - apply (convert_single to_compound_factor); [done..|].
    by rewrite length_tabulate, (verify_eq_time_range_length _ _ Hc).
  - apply (convert_single to_discount_factor); [done..|].
    by rewrite length_tabulate, (verify_eq_time_range_length _ _ Hc).
Qed.

Lemma conversions_of_lists_witness :
  let cs := [ {| ts_start := 0; ts_pyr := 1; ts_data := [100; 100; 100] |};
              {| ts_start := 0; ts_pyr := 1; ts_data := [50; 60; 70] |} ] in
  let inflation := {| ts_start := 0; ts_pyr := 1;
                      ts_data := [10; 10; 20] |} in
  exists current constant,
    const2curr (PyList (OSeries <$> cs)) (Scalar (OSeries inflation))
      (Scalar (OInt 0)) = Ok (PyList current)
    /\ curr2const (PyList (OSeries <$> cs)) (Scalar (OSeries inflation))
         (Scalar (OInt 0)) = Ok (PyList constant)
    /\ length current = length cs
    /\ length constant = length cs
    /\ forall i c, cs !! i = Some c ->
         exists r r',
           current !! i = Some r /\ constant !! i = Some r'
           /\ const2curr (Scalar (OSeries c)) (Scalar (OSeries inflation))
                (Scalar (OInt 0)) = Ok (Scalar r)
           /\ curr2const (Scalar (OSeries c)) (Scalar (OSeries inflation))
                (Scalar (OInt 0)) = Ok (Scalar r').
Proof.
  intros cs inflation.
  apply (conversions_of_lists cs inflation 0 0).
  - unfold cs. cbn [length]. lia.
  - intros c Hc. unfold cs in Hc.
    rewrite !elem_of_cons, elem_of_nil in Hc.
    destruct Hc as [->|[->|[]]]; reflexivity.
  - done.
  - by apply rates_defined_check.
  - reflexivity.
Defined.

(** X30.  [after_tax_cashflow] checks the range of periods before it
    computes anything: where [verify_eq_time_range] raises for the cashflow
    and the tax rate, it raises just that and returns no series. *)
Theorem after_tax_cashflow_checks_range (cflo tax_rate : TimeSeries)
  (e : exn) :
  verify_eq_time_range cflo tax_rate = Raise e ->
  after_tax_cashflow (Scalar cflo) (Scalar tax_rate) = Raise e.
Proof.
  intros Hrange. unfold after_tax_cashflow, vars2list, tax_series.
  cbn [fold_left for_each Nat.ltb Nat.leb mbind result_bind map replicate
       getitem lookup list_lookup zip zip_with].
  by rewrite Hrange.
Qed.

Lemma after_tax_cashflow_checks_range_witness :
  after_tax_cashflow
    (Scalar {| ts_start := 0; ts_pyr := 1; ts_data := [100; 100] |})
    (Scalar {| ts_start := 0; ts_pyr := 1; ts_data := [10; 10; 10] |})
  = Raise ValueError_range.
Proof.
  apply (after_tax_cashflow_checks_range
           {| ts_start := 0; ts_pyr := 1; ts_data := [100; 100] |}
           {| ts_start := 0; ts_pyr := 1; ts_data := [10; 10; 10] |}).
  reflexivity.
Defined.
